(** * hypothesis-graphql: query strategies

    A shallow embedding of [hypothesis_graphql/_strategies/primitives.py] and
    [hypothesis_graphql/_strategies/queries.py].

    The Python functions build Hypothesis strategies.  Building a strategy is
    ordinary code that returns or raises; it is embedded as functions into
    [result].  Drawing from a strategy is the work of the Hypothesis engine;
    a strategy is embedded as the set of outcomes a draw may have (a value, or
    an exception raised by code that runs while drawing), and every Hypothesis
    combinator the sources use is given by its documented contract. *)

From Stdlib Require Import ZArith NArith Floats.SpecFloat DecimalString.
From Stdlib Require Import DecimalPos DecimalZ.
From stdpp Require Import base list strings gmap sorting.

Local Open Scope string_scope.
Local Open Scope list_scope.
Local Open Scope nat_scope.
Set Warnings "-register-all,-clear-no-such-hyp".

(** ** Python exceptions and results *)

Inductive exn : Type :=
| ValueError (msg : string)
| TypeError (msg : string)
| GraphQLError (msg : string).

(** The result of running Python code: a value, or a raised exception. *)
Inductive result (A : Type) : Type :=
| Return (a : A)
| Raise (e : exn).
Arguments Return {A} a.
Arguments Raise {A} e.

#[global] Instance result_ret : MRet result := @Return.
#[global] Instance result_bind : MBind result := λ A B f m,
  match m with
  | Return a => f a
  | Raise e => Raise e
  end.
#[global] Instance result_fmap : FMap result := λ A B f m,
  match m with
  | Return a => Return (f a)
  | Raise e => Raise e
  end.

Definition is_Return {A} (r : result A) : Prop := ∃ a, r = Return a.

(** Python's [str] on an [int]. *)
Definition str_int (v : Z) : string := NilZero.string_of_int (Z.to_int v).

(** A Python [str] value that is sampled as text: its sequence of code points. *)
Definition text : Type := list N.

(** Python's built-in [list] applied to a tuple; tuples of one element type are
    lists already. *)
Definition list_ {A} (t : list A) : list A := t.

(** ** Hypothesis strategies (module [hypothesis.strategies]) *)

(** [s (Return a)]: a draw from [s] may give [a].  [s (Raise e)]: a draw from
    [s] may raise [e]. *)
Definition SearchStrategy (A : Type) : Type := result A → Prop.

Module st.

Definition nothing {A} : SearchStrategy A := λ _, False.

Definition just {A} (value : A) : SearchStrategy A := λ o, o = Return value.

Definition none {A} : SearchStrategy (option A) := just None.

Definition booleans : SearchStrategy bool := λ o, ∃ b : bool, o = Return b.

Definition integers (min_value max_value : Z) : SearchStrategy Z :=
  λ o, ∃ v, (min_value ≤ v ≤ max_value)%Z ∧ o = Return v.

Definition is_infinity (f : spec_float) : bool :=
  match f with S754_infinity _ => true | _ => false end.
Definition is_nan (f : spec_float) : bool :=
  match f with S754_nan => true | _ => false end.

Definition floats (allow_infinity allow_nan : bool) : SearchStrategy spec_float :=
  λ o, ∃ f, (is_infinity f → allow_infinity) ∧ (is_nan f → allow_nan) ∧ o = Return f.

Definition sampled_from {A} (elements : list A) : SearchStrategy A :=
  λ o, ∃ a, a ∈ elements ∧ o = Return a.

(** The Unicode general category Cs is the surrogate block. *)
Definition is_surrogate (c : N) : Prop := (0xD800 ≤ c ≤ 0xDFFF)%N.

(** [characters(blacklist_categories=..., max_codepoint=...)].  Of the
    general categories only Cs, the one the sources exclude, is told apart. *)
Definition characters (blacklist_categories : list string) (max_codepoint : N)
    : SearchStrategy N :=
  λ o, ∃ c, (c ≤ max_codepoint)%N
            ∧ ("Cs" ∈ blacklist_categories → ¬ is_surrogate c)
            ∧ o = Return c.

(** [lists(elements, min_size=..., unique_by=...)]. *)
Definition lists {A} (elements : SearchStrategy A) (min_size : nat)
    (unique_by : option (A → string)) : SearchStrategy (list A) :=
  λ o, (∃ l, min_size ≤ length l
             ∧ Forall (λ a, elements (Return a)) l
             ∧ (∀ key, unique_by = Some key → NoDup (key <$> l))
             ∧ o = Return l)
       ∨ (∃ e, elements (Raise e) ∧ o = Raise e).

(** [text(alphabet=...)]. *)
Definition text (alphabet : SearchStrategy N) : SearchStrategy text :=
  lists alphabet 0 None.

(** [tuples] of strategies: the components are drawn from left to right. *)
Definition tuples {A} (args : list (SearchStrategy A)) : SearchStrategy (list A) :=
  λ o, (∃ l, Forall2 (λ s a, s (Return a)) args l ∧ o = Return l)
       ∨ (∃ before s after l e,
             args = before ++ s :: after
             ∧ Forall2 (λ s a, s (Return a)) before l
             ∧ s (Raise e) ∧ o = Raise e).

(** [strategy.map(pack)]. *)
Definition map {A B} (pack : A → B) (s : SearchStrategy A) : SearchStrategy B :=
  λ o, (∃ a, s (Return a) ∧ o = Return (pack a))
       ∨ (∃ e, s (Raise e) ∧ o = Raise e).

(** [strategy.flatmap(expand)]: [expand] runs while drawing, on the value
    drawn from [strategy]; what it raises is raised by the draw. *)
Definition flatmap {A B} (s : SearchStrategy A)
    (expand : A → result (SearchStrategy B)) : SearchStrategy B :=
  λ o, (∃ a, s (Return a)
             ∧ match expand a with
               | Return t => t o
               | Raise e => o = Raise e
               end)
       ∨ (∃ e, s (Raise e) ∧ o = Raise e).

(** [s | t]. *)
Definition one_of {A} (s t : SearchStrategy A) : SearchStrategy A :=
  λ o, s o ∨ t o.

(** [builds(target, kw=strategy)], one keyword argument. *)
Definition builds {A B} (target : A → B) (kw : SearchStrategy A) : SearchStrategy B :=
  map target kw.

(** [builds(target, kw1=s1, kw2=s2)], the keyword arguments drawn in order. *)
Definition builds2 {A B C} (target : A → B → C)
    (kw1 : SearchStrategy A) (kw2 : SearchStrategy B) : SearchStrategy C :=
  λ o, (∃ a b, kw1 (Return a) ∧ kw2 (Return b) ∧ o = Return (target a b))
       ∨ (∃ e, kw1 (Raise e) ∧ o = Raise e)
       ∨ (∃ a e, kw1 (Return a) ∧ kw2 (Raise e) ∧ o = Raise e).

End st.

Infix "|||" := st.one_of (at level 50, left associativity).

(** ** The AST of graphql-core, as far as the strategies build it *)

Record NameNode : Type := mkNameNode { name_value : string }.

Inductive ValueNode : Type :=
| NullValueNode
| IntValueNode (value : string)
| FloatValueNode (value : string)
| StringValueNode (value : text)
| BooleanValueNode (value : bool)
| EnumValueNode (value : string)
| ListValueNode (values : option (list ValueNode))
| ObjectValueNode (fields : option (list ObjectFieldNode))
with ObjectFieldNode : Type :=
| mkObjectFieldNode (name : NameNode) (value : ValueNode).

Record ArgumentNode : Type := mkArgumentNode {
  argument_name : NameNode;
  argument_value : ValueNode
}.

Record NamedTypeNode : Type := mkNamedTypeNode { named_type_name : NameNode }.

Inductive SelectionNode : Type :=
| FieldNode (name : NameNode) (arguments : list ArgumentNode)
            (selection_set : SelectionSetNode)
| InlineFragmentNode (type_condition : NamedTypeNode)
                     (selection_set : SelectionSetNode)
with SelectionSetNode : Type :=
| mkSelectionSetNode (kind : string) (selections : option (list SelectionNode)).

Inductive OperationType : Type := QUERY | MUTATION | SUBSCRIPTION.

Record OperationDefinitionNode : Type := mkOperationDefinitionNode {
  operation_kind : string;
  operation : OperationType;
  operation_selection_set : SelectionSetNode
}.

Record DocumentNode : Type := mkDocumentNode {
  document_kind : string;
  definitions : list OperationDefinitionNode
}.

(** ** primitives.py *)

Module primitives.

Definition MIN_INT : Z := - 2 ^ 31.
Definition MAX_INT : Z := 2 ^ 31 - 1.

Section Primitives.
(** Python's [str] on a [float]. *)
Variable str_float : spec_float → String.string.

Definition maybe_null (strategy : SearchStrategy ValueNode) (nullable : bool)
    : SearchStrategy ValueNode :=
  if nullable then strategy ||| st.just NullValueNode else strategy.

Definition boolean (nullable : bool) : SearchStrategy ValueNode :=
  maybe_null (st.map (λ v, BooleanValueNode v) st.booleans) nullable.

Definition string (nullable : bool) : SearchStrategy ValueNode :=
  let value := st.text (st.characters ["Cs"] 0xFFFF) in
  maybe_null (st.map (λ v, StringValueNode v) value) nullable.

Definition float_ (nullable : bool) : SearchStrategy ValueNode :=
  let value := st.floats false false in
  maybe_null (st.map (λ v, FloatValueNode (str_float v)) value) nullable.

Definition int_ (nullable : bool) : SearchStrategy ValueNode :=
  let value := st.integers MIN_INT MAX_INT in
  maybe_null (st.map (λ v, IntValueNode (str_int v)) value) nullable.

Definition id_ (nullable : bool) : SearchStrategy ValueNode :=
  string nullable ||| int_ nullable.

(** [type_] is a [GraphQLEnumType]; [values] is its [values] dict, of which
    the code samples the keys. *)
Definition enum (values : list String.string) (nullable : bool)
    : SearchStrategy ValueNode :=
  let value := st.sampled_from values in
  maybe_null (st.map (λ v, EnumValueNode v) value) nullable.

(** [type_] is a [GraphQLScalarType]; [name] is [type_.name]. *)
Definition scalar (name : String.string) (nullable : bool)
    : result (SearchStrategy ValueNode) :=
  if decide (name = "Int") then Return (int_ nullable)
  else if decide (name = "Float") then Return (float_ nullable)
  else if decide (name = "String") then Return (string nullable)
  else if decide (name = "ID") then Return (id_ nullable)
  else if decide (name = "Boolean") then Return (boolean nullable)
  else Raise (TypeError "Custom scalar types are not supported").

End Primitives.

End primitives.

(** ** The schema graph of graphql-core *)

(** A type reference as a field, an argument or an input field carries it.
    Object, interface and input object types are referred to by name and
    their fields are looked up in the schema; scalar, enum and union types
    carry what the strategies read from them. *)
Inductive GraphQLType : Type :=
| GraphQLScalarType (name : string)
| GraphQLEnumType (name : string) (values : list string)
| GraphQLInputObjectType (name : string)
| GraphQLObjectType (name : string)
| GraphQLInterfaceType (name : string)
| GraphQLUnionType (name : string) (types : list string)
| GraphQLList (of_type : GraphQLType)
| GraphQLNonNull (of_type : GraphQLType).

(** [type_.__class__.__name__] *)
Definition class_name (type_ : GraphQLType) : string :=
  match type_ with
  | GraphQLScalarType _ => "GraphQLScalarType"
  | GraphQLEnumType _ _ => "GraphQLEnumType"
  | GraphQLInputObjectType _ => "GraphQLInputObjectType"
  | GraphQLObjectType _ => "GraphQLObjectType"
  | GraphQLInterfaceType _ => "GraphQLInterfaceType"
  | GraphQLUnionType _ _ => "GraphQLUnionType"
  | GraphQLList _ => "GraphQLList"
  | GraphQLNonNull _ => "GraphQLNonNull"
  end.

Record GraphQLArgument : Type := mkGraphQLArgument {
  argument_type : GraphQLType
}.

(** [args] is a dict in declaration order. *)
Record GraphQLField : Type := mkGraphQLField {
  field_type : GraphQLType;
  args : list (string * GraphQLArgument)
}.

Record GraphQLInputField : Type := mkGraphQLInputField {
  input_field_type : GraphQLType
}.

(** [query_type] names the root object type; [object_types] and
    [input_object_types] give the [fields] dict of every object type and of
    every input object type. *)
Record GraphQLSchema : Type := mkGraphQLSchema {
  query_type : option string;
  object_types : gmap string (list (string * GraphQLField));
  input_object_types : gmap string (list (string * GraphQLInputField))
}.

(** [type_.fields] of the object type called [name]. *)
Definition object_fields (schema : GraphQLSchema) (name : string)
    : list (string * GraphQLField) :=
  default [] (object_types schema !! name).

(** [type_.fields] of the input object type called [name]. *)
Definition input_object_fields (schema : GraphQLSchema) (name : string)
    : list (string * GraphQLInputField) :=
  default [] (input_object_types schema !! name).

(** ** queries.py *)

(** Python's [sorted] on the items of a dict: the keys are distinct, so the
    pairs are ordered by key. *)
Definition sorted {F} (items : list (string * F)) : list (string * F) :=
  merge_sort (λ x y, String.le x.1 y.1) items.

Definition subset_of_fields {F} (all_fields : list (string * F))
    : SearchStrategy (list (string * F)) :=
  let field_pairs := sorted all_fields in
  (* pairs are unique by field name *)
  st.lists (st.sampled_from field_pairs) 1 (Some fst).

Definition list_of_nodes {F Node} (items : list (string * F))
    (strategy : string → F → result (SearchStrategy Node))
    : result (SearchStrategy (list Node)) :=
  nodes ← mapM (λ item, strategy item.1 item.2) items;
  Return (st.map list_ (st.tuples nodes)).

Definition make_selection_set_node (selections : option (list SelectionNode))
    : SelectionSetNode :=
  mkSelectionSetNode "selection_set" selections.

Definition make_query (selections : list SelectionNode) : DocumentNode :=
  mkDocumentNode "document"
    [mkOperationDefinitionNode "operation_definition" QUERY
       (make_selection_set_node (Some selections))].

Definition check_nullable (type_ : GraphQLType) : GraphQLType * bool :=
  match type_ with
  | GraphQLNonNull of_type => (of_type, false)
  | _ => (type_, true)
  end.

Definition is_non_null (type_ : GraphQLType) : bool :=
  match type_ with GraphQLNonNull _ => true | _ => false end.

Section Strategies.
(** Python's [str] on a [float]. *)
Variable str_float : spec_float → string.
Variable schema : GraphQLSchema.

(** *** Values

    A strategy that is not [None]-valued is alternated with [st.none] below;
    [Some] marks its values as not [None].

    The functions that call [value_nodes] take it as their first argument. *)

Definition object_field_nodes
    (value_nodes : GraphQLType → result (SearchStrategy ValueNode))
    (name : string) (field : GraphQLInputField)
    : result (SearchStrategy ObjectFieldNode) :=
  value ← value_nodes (input_field_type field);
  Return (st.builds (mkObjectFieldNode (mkNameNode name)) value).

Definition list_of_object_field_nodes
    (value_nodes : GraphQLType → result (SearchStrategy ValueNode))
    (items : list (string * GraphQLInputField)) :=
  list_of_nodes items (object_field_nodes value_nodes).

(** [type_] is a [GraphQLInputObjectType]; [fields] is [type_.fields]. *)
Definition objects
    (value_nodes : GraphQLType → result (SearchStrategy ValueNode))
    (fields : list (string * GraphQLInputField)) (nullable : bool)
    : SearchStrategy ValueNode :=
  let fields_value :=
    st.map Some (st.flatmap (subset_of_fields fields)
                            (list_of_object_field_nodes value_nodes)) in
  let fields_value :=
    if nullable then fields_value ||| st.none else fields_value in
  st.builds ObjectValueNode fields_value.

(** [type_] is a [GraphQLList]; [of_type] is [type_.of_type]. *)
Definition lists
    (value_nodes : GraphQLType → result (SearchStrategy ValueNode))
    (of_type : GraphQLType) (nullable : bool)
    : result (SearchStrategy ValueNode) :=
  elements ← value_nodes of_type;
  let list_value := st.map Some (st.lists elements 0 None) in
  let list_value :=
    if nullable then list_value ||| st.none else list_value in
  Return (st.builds ListValueNode list_value).

(** The dispatch of [value_nodes] on the type that [check_nullable] gives. *)
Definition value_nodes_of
    (value_nodes deeper : GraphQLType → result (SearchStrategy ValueNode))
    (type_ : GraphQLType) (nullable : bool)
    : result (SearchStrategy ValueNode) :=
  match type_ with
  (* Types without children *)
  | GraphQLScalarType name => primitives.scalar str_float name nullable
  | GraphQLEnumType _ values => Return (primitives.enum values nullable)
  (* Types with children *)
  | GraphQLList of_type => lists value_nodes of_type nullable
  | GraphQLInputObjectType name =>
      Return (objects deeper (input_object_fields schema name) nullable)
  | _ => Raise (TypeError ("Type " ++ class_name type_ ++ " is not supported."))
  end.

(** [depth] is the number of nested draws the engine still allows; a draw
    nested deeper is abandoned and gives nothing.  The fields of an input
    object are expanded by a draw ([flatmap]), one level down; the element
    type of a list is expanded when the strategy is built. *)
Fixpoint value_nodes (depth : nat) (type_ : GraphQLType) {struct depth}
    : result (SearchStrategy ValueNode) :=
  let deeper :=
    match depth with
    | 0 => λ _, Return st.nothing
    | S depth' => value_nodes depth'
    end in
  (fix value_nodes (type_ : GraphQLType) : result (SearchStrategy ValueNode) :=
     match type_ with
     | GraphQLNonNull of_type => value_nodes_of value_nodes deeper of_type false
     | _ => value_nodes_of value_nodes deeper type_ true
     end) type_.

Definition argument_values (depth : nat) (argument : GraphQLArgument)
    : result (SearchStrategy ValueNode) :=
  value_nodes depth (argument_type argument).

(** The loop of [list_of_arguments], which collects [args]. *)
Fixpoint list_of_arguments_args (depth : nat)
    (kwargs : list (string * GraphQLArgument))
    : result (list (SearchStrategy ArgumentNode)) :=
  match kwargs with
  | [] => Return []
  | (name, argument) :: kwargs =>
      match argument_values depth argument with
      | Raise (TypeError _) =>
          if negb (is_non_null (argument_type argument))
          then list_of_arguments_args depth kwargs
          else Raise (TypeError
            "Non-nullable custom scalar types are not supported as arguments")
      | Raise exc => Raise exc
      | Return argument_strategy =>
          args ← list_of_arguments_args depth kwargs;
          Return (st.builds (mkArgumentNode (mkNameNode name)) argument_strategy
                  :: args)
      end
  end.

Definition list_of_arguments (depth : nat)
    (kwargs : list (string * GraphQLArgument))
    : result (SearchStrategy (list ArgumentNode)) :=
  args ← list_of_arguments_args depth kwargs;
  Return (st.map list_ (st.tuples args)).

(** *** Selections

    The functions that call [_fields] take it as an argument. *)

(** The [while] loop of [fields_for_type]: strip every wrapping type. *)
Fixpoint unwrap (type_ : GraphQLType) : GraphQLType :=
  match type_ with
  | GraphQLList of_type | GraphQLNonNull of_type => unwrap of_type
  | _ => type_
  end.

(** [type_] is a member of a union, an object type, given by its name. *)
Definition inline_fragment
    (_fields : string → option (list string) → SearchStrategy (list SelectionNode))
    (type_ : string) : SearchStrategy SelectionNode :=
  st.builds (InlineFragmentNode (mkNamedTypeNode (mkNameNode type_)))
    (st.builds make_selection_set_node (st.map Some (_fields type_ None))).

Definition inline_fragments
    (_fields : string → option (list string) → SearchStrategy (list SelectionNode))
    (items : list string) : result (SearchStrategy (list SelectionNode)) :=
  Return (st.map list_ (st.tuples (inline_fragment _fields <$> items))).

Definition fields_for_type
    (_fields : string → option (list string) → SearchStrategy (list SelectionNode))
    (field : GraphQLField) : SearchStrategy (option (list SelectionNode)) :=
  let type_ := unwrap (field_type field) in
  match type_ with
  | GraphQLObjectType name => st.map Some (_fields name None)
  | GraphQLUnionType _ types =>
      (* A union is a set of object types *)
      st.map Some
        (st.flatmap (st.lists (st.sampled_from types) 1 (Some (λ m, m)))
                    (inline_fragments _fields))
  (* Only object has field, others don't *)
  | _ => st.none
  end.

Definition field_nodes (depth : nat)
    (_fields : string → option (list string) → SearchStrategy (list SelectionNode))
    (name : string) (field : GraphQLField) : result (SearchStrategy SelectionNode) :=
  arguments ← list_of_arguments depth (args field);
  Return (st.builds2 (FieldNode (mkNameNode name))
            arguments
            (st.builds make_selection_set_node (fields_for_type _fields field))).

Definition lists_of_field_nodes (depth : nat)
    (_fields : string → option (list string) → SearchStrategy (list SelectionNode))
    (items : list (string * GraphQLField)) :=
  list_of_nodes items (field_nodes depth _fields).

(** [object_type] is the name of an object type.  The field nodes are
    expanded by a draw ([flatmap]), one level down. *)
Fixpoint _fields (depth : nat) (object_type : string)
    (fields : option (list string)) : SearchStrategy (list SelectionNode) :=
  match depth with
  | 0 => st.nothing
  | S depth' =>
      let subset :=
        match fields with
        | Some ((_ :: _) as fields) =>
            filter (λ item, item.1 ∈ fields) (object_fields schema object_type)
        | _ => object_fields schema object_type
        end in
      (* minimum 1 field, an empty query is not valid *)
      st.flatmap (subset_of_fields subset)
                 (lists_of_field_nodes depth' (_fields depth'))
  end.
End Strategies.

Section Query.
Variable str_float : spec_float → string.
(** [graphql.build_schema] and [graphql.print_ast]. *)
Variable build_schema : string → result GraphQLSchema.
Variable print_ast : DocumentNode → string.

(** The first statement of [query]. *)
Definition parse (schema : string + GraphQLSchema) : result GraphQLSchema :=
  match schema with
  | inl source => build_schema source
  | inr parsed_schema => Return parsed_schema
  end.

Definition query (depth : nat) (schema : string + GraphQLSchema)
    (fields : option (list string)) : result (SearchStrategy string) :=
  parsed_schema ← parse schema;
  match query_type parsed_schema with
  | None => Raise (ValueError "Query type is not defined in the schema")
  | Some root =>
      _ ← match fields with
          | Some [] =>
              Raise (ValueError "If you pass `fields`, it should not be empty")
          | Some fields =>
              let invalid_fields :=
                filter (λ field, field ∉ (object_fields parsed_schema root).*1)
                       fields in
              match invalid_fields with
              | [] => Return ()
              | _ => Raise (ValueError
                       ("Unknown fields: " ++ String.concat ", " invalid_fields))
              end
          | None => Return ()
          end;
      Return (st.map print_ast
                (st.map make_query
                   (_fields str_float parsed_schema depth root fields)))
  end.
End Query.

(** ** The schema cache *)

Module cache.

(** A schema graph as an object: [instance] tells two objects apart that hold
    equal graphs. *)
Record SchemaInstance : Type := mkSchemaInstance {
  instance : nat;
  graph : GraphQLSchema
}.

(** The process-wide state: the cache, and the number of schema objects
    allocated so far. *)
Record State : Type := mkState {
  entries : gmap string SchemaInstance;
  allocated : nat
}.

Section Cache.
Variable build_schema : string → result GraphQLSchema.

(** Modelled from the spec: [hypothesis_graphql.cache.cached_build_schema]
    is not among the sources (only the tests import it).  The spec:
    a mapping from exact source text to previously parsed schema graphs; a
    hit returns the same graph instance; a miss parses via the external
    schema library, stores, and returns; no eviction. *)
Definition cached_build_schema (source : string) (s : State)
    : result SchemaInstance * State :=
  match entries s !! source with
  | Some parsed => (Return parsed, s)
  | None =>
      match build_schema source with
      | Raise e => (Raise e, s)
      | Return parsed_graph =>
          let parsed := mkSchemaInstance (allocated s) parsed_graph in
          (Return parsed,
           mkState (<[source := parsed]> (entries s)) (S (allocated s)))
      end
  end.

(** The state after resolving every text of [sources] in turn. *)
Definition resolve_all (sources : list string) (s : State) : State :=
  foldl (λ s source, (cached_build_schema source s).2) s sources.
End Cache.

End cache.

(** ** Notions the statements use *)

(** The scalars that [primitives.scalar] knows. *)
Definition supported_scalars : list string :=
  ["Int"; "Float"; "String"; "ID"; "Boolean"].

(** The leaf type of [type_] is a custom scalar. *)
Definition custom_scalar_leaf (type_ : GraphQLType) : bool :=
  match unwrap type_ with
  | GraphQLScalarType name => bool_decide (name ∉ supported_scalars)
  | _ => false
  end.

(** [type_] is an input type as graphql-core builds them: list and non-null
    wrappers around a scalar, an enum or an input object, and no non-null
    type directly inside a non-null type. *)
Fixpoint input_type (type_ : GraphQLType) : bool :=
  match type_ with
  | GraphQLScalarType _ | GraphQLEnumType _ _ | GraphQLInputObjectType _ => true
  | GraphQLObjectType _ | GraphQLInterfaceType _ | GraphQLUnionType _ _ => false
  | GraphQLList of_type => input_type of_type
  | GraphQLNonNull of_type => negb (is_non_null of_type) && input_type of_type
  end.

(** An argument for which [list_of_arguments] gets a strategy. *)
Definition has_strategy (str_float : spec_float → string) (schema : GraphQLSchema)
    (depth : nat) (item : string * GraphQLArgument) : bool :=
  match argument_values str_float schema depth item.2 with
  | Return _ => true
  | Raise _ => false
  end.

(** The value of [subset] in [_fields]. *)
Definition eligible (schema : GraphQLSchema) (object_type : string)
    (fields : option (list string)) : list (string * GraphQLField) :=
  match fields with
  | Some ((_ :: _) as fields) =>
      filter (λ item, item.1 ∈ fields) (object_fields schema object_type)
  | _ => object_fields schema object_type
  end.

(** The names in [fields] that the root type does not declare. *)
Definition unknown_fields (schema : GraphQLSchema) (root : string)
    (fields : list string) : list string :=
  filter (λ field, field ∉ (object_fields schema root).*1) fields.

Definition argument_names (arguments : list ArgumentNode) : list string :=
  (λ node, name_value (argument_name node)) <$> arguments.

Definition not_supported_as_argument : exn :=
  TypeError "Non-nullable custom scalar types are not supported as arguments".

(** A field has a non-null argument whose leaf type is a custom scalar. *)
Definition requires_custom_scalar (field : GraphQLField) : Prop :=
  ∃ name argument, (name, argument) ∈ args field
    ∧ is_non_null (argument_type argument) = true
    ∧ custom_scalar_leaf (argument_type argument) = true.

(** Selections that fit the schema and are nowhere empty: [fields_ok T l] for
    the selections [l] of a selection set over the object type [T];
    [nested_ok t ss] for the selection set node [ss] of a field whose unwrapped
    type is [t]. *)
Inductive fields_ok (schema : GraphQLSchema) : string → list SelectionNode → Prop :=
| fields_ok_intro T l :
    l ≠ [] → Forall (field_ok schema T) l → fields_ok schema T l
with field_ok (schema : GraphQLSchema) : string → SelectionNode → Prop :=
| field_ok_intro T name field arguments ss :
    (name, field) ∈ object_fields schema T →
    nested_ok schema (unwrap (field_type field)) ss →
    field_ok schema T (FieldNode (mkNameNode name) arguments ss)
with nested_ok (schema : GraphQLSchema) : GraphQLType → SelectionSetNode → Prop :=
| nested_object T l :
    fields_ok schema T l →
    nested_ok schema (GraphQLObjectType T) (make_selection_set_node (Some l))
| nested_union name types l :
    l ≠ [] → Forall (fragment_ok schema types) l →
    nested_ok schema (GraphQLUnionType name types) (make_selection_set_node (Some l))
| nested_leaf type_ :
    match type_ with
    | GraphQLObjectType _ | GraphQLUnionType _ _ => False
    | _ => True
    end →
    nested_ok schema type_ (make_selection_set_node None)
with fragment_ok (schema : GraphQLSchema) : list string → SelectionNode → Prop :=
| fragment_ok_intro types member l :
    member ∈ types → fields_ok schema member l →
    fragment_ok schema types
      (InlineFragmentNode (mkNamedTypeNode (mkNameNode member))
                          (make_selection_set_node (Some l))).

(** The field nodes of a selection set and their names. *)
Definition field_name (node : SelectionNode) : option string :=
  match node with
  | FieldNode name _ _ => Some (name_value name)
  | InlineFragmentNode _ _ => None
  end.

(** *** The schemas of the custom scalar tests

    [scalar Date], [type Object { created: Date }] and a [Query] type with
    one field [getByDate]. *)
Definition created_field : GraphQLField :=
  mkGraphQLField (GraphQLScalarType "Date") [].

Definition getByDate_field (created : GraphQLType) : GraphQLField :=
  mkGraphQLField (GraphQLObjectType "Object")
                 [("created", mkGraphQLArgument created)].

Definition custom_scalar_schema (created : GraphQLType) : GraphQLSchema :=
  let Object := [("created", created_field)] in
  let Query := [("getByDate", getByDate_field created)] in
  mkGraphQLSchema (Some "Query")
                  {[ "Object" := Object; "Query" := Query ]}
                  ∅.

(** [getByDate(created: Date!): Object] *)
Definition required_date_schema : GraphQLSchema :=
  custom_scalar_schema (GraphQLNonNull (GraphQLScalarType "Date")).

(** [getByDate(created: Date): Object] *)
Definition optional_date_schema : GraphQLSchema :=
  custom_scalar_schema (GraphQLScalarType "Date").

(** The code points that [primitives.string] lets into a text. *)
Definition bmp_not_surrogate (c : N) : Prop :=
  (c ≤ 0xFFFF)%N ∧ ¬ st.is_surrogate c.

(** [value_nodes] as the draw of an input object's fields calls it. *)
Definition value_nodes_deeper (str_float : spec_float → string)
    (schema : GraphQLSchema) (depth : nat)
    : GraphQLType → result (SearchStrategy ValueNode) :=
  match depth with
  | 0 => λ _, Return st.nothing
  | S depth' => value_nodes str_float schema depth'
  end.

(** The selections of the document [{ getByDate { created } }]. *)
Definition created_node : SelectionNode :=
  FieldNode (mkNameNode "created") [] (make_selection_set_node None).

Definition getByDate_node : SelectionNode :=
  FieldNode (mkNameNode "getByDate") []
            (make_selection_set_node (Some [created_node])).

(** A float that is neither an infinity nor a NaN. *)
Definition finite_float (f : spec_float) : Prop :=
  match f with
  | S754_zero _ | S754_finite _ _ _ => True
  | S754_infinity _ | S754_nan => False
  end.

Definition object_field_name (node : ObjectFieldNode) : string :=
  match node with mkObjectFieldNode name _ => name_value name end.

Definition object_field_value (node : ObjectFieldNode) : ValueNode :=
  match node with mkObjectFieldNode _ value => value end.

(** The type that an inline fragment is on. *)
Definition type_condition_name (node : SelectionNode) : option string :=
  match node with
  | InlineFragmentNode type_condition _ =>
      Some (name_value (named_type_name type_condition))
  | FieldNode _ _ _ => None
  end.

(** *** A schema with an input object

    [input QueryInput { eq: String, created: Date, id: Int! }],
    [type Model { id: ID }] and
    [type Query { getModel(contains: QueryInput): Model }]. *)
Definition QueryInput_fields : list (string * GraphQLInputField) :=
  [("eq", mkGraphQLInputField (GraphQLScalarType "String"));
   ("created", mkGraphQLInputField (GraphQLScalarType "Date"));
   ("id", mkGraphQLInputField (GraphQLNonNull (GraphQLScalarType "Int")))].

Definition query_input_schema : GraphQLSchema :=
  mkGraphQLSchema (Some "Query")
    {[ "Query" :=
         [("getModel",
           mkGraphQLField (GraphQLObjectType "Model")
             [("contains", mkGraphQLArgument (GraphQLInputObjectType "QueryInput"))])];
       "Model" := [("id", mkGraphQLField (GraphQLScalarType "ID") [])] ]}
    {[ "QueryInput" := QueryInput_fields ]}.

(** [reaches schema T l T' name]: in the selections [l] over the object type
    [T], a field called [name] is selected on the object type [T'], at the top
    of [l] or anywhere below it. *)
Inductive reaches (schema : GraphQLSchema)
    : string → list SelectionNode → string → string → Prop :=
| reaches_here T l name arguments selection_set :
    FieldNode (mkNameNode name) arguments selection_set ∈ l →
    reaches schema T l T name
| reaches_object T l parent field arguments kind l' T2 T' name :
    FieldNode (mkNameNode parent) arguments (mkSelectionSetNode kind (Some l')) ∈ l →
    (parent, field) ∈ object_fields schema T →
    unwrap (field_type field) = GraphQLObjectType T2 →
    reaches schema T2 l' T' name →
    reaches schema T l T' name
| reaches_union T l parent arguments kind fragments member kind' l' T' name :
    FieldNode (mkNameNode parent) arguments
              (mkSelectionSetNode kind (Some fragments)) ∈ l →
    InlineFragmentNode (mkNamedTypeNode (mkNameNode member))
                       (mkSelectionSetNode kind' (Some l')) ∈ fragments →
    reaches schema member l' T' name →
    reaches schema T l T' name.

(** *** The argument nodes of a field node *)

(** [arguments] holds one argument node for each item of [kwargs], in their
    order: the node is under the name of the item and its value is drawn from
    the strategy that [argument_values] gives for the item. *)
Definition argument_nodes_drawn (str_float : spec_float → string)
    (schema : GraphQLSchema) (depth : nat)
    (kwargs : list (string * GraphQLArgument))
    (arguments : list ArgumentNode) : Prop :=
  Forall2 (λ item node, ∃ v value,
             argument_values str_float schema depth item.2 = Return v
             ∧ v (Return value)
             ∧ node = mkArgumentNode (mkNameNode item.1) value)
          kwargs arguments.

(** The declared arguments whose leaf type is not a custom scalar. *)
Definition supported_args (field : GraphQLField)
    : list (string * GraphQLArgument) :=
  filter (λ item, custom_scalar_leaf (argument_type item.2) = false) (args field).

(** The value node that stands for no value at a nullable type: [maybe_null]
    adds Null to scalars and enums, [lists] a list node whose [values] is
    [None], [objects] an object node whose [fields] is [None]. *)
Definition null_draw (type_ : GraphQLType) : option ValueNode :=
  match type_ with
  | GraphQLScalarType _ | GraphQLEnumType _ _ => Some NullValueNode
  | GraphQLList _ => Some (ListValueNode None)
  | GraphQLInputObjectType _ => Some (ObjectValueNode None)
  | _ => None
  end.

(** [getByDate(first: Int, created: [Date], after: ID): Object] *)
Definition getByDate_paged_field : GraphQLField :=
  mkGraphQLField (GraphQLObjectType "Object")
    [("first", mkGraphQLArgument (GraphQLScalarType "Int"));
     ("created", mkGraphQLArgument (GraphQLList (GraphQLScalarType "Date")));
     ("after", mkGraphQLArgument (GraphQLScalarType "ID"))].

(** [getModel(contain: [Int]): Model] *)
Definition getModel_contain_field : GraphQLField :=
  mkGraphQLField (GraphQLObjectType "Model")
    [("contain", mkGraphQLArgument (GraphQLList (GraphQLScalarType "Int")))].

(** The selection [id] of a [Model]. *)
Definition id_node : SelectionNode :=
  FieldNode (mkNameNode "id") [] (make_selection_set_node None).

(** ** Draws of the primitive strategies *)

Lemma maybe_null_draw strategy nullable o :
  primitives.maybe_null strategy nullable o
  ↔ strategy o ∨ (nullable = true ∧ o = Return NullValueNode).
Proof.
  unfold primitives.maybe_null, st.one_of, st.just.
  destruct nullable; [tauto|].
  split; [by left | by intros [H | [[=] _]]].
Qed.

Lemma characters_draw o :
  st.characters ["Cs"] 0xFFFF o ↔ ∃ c, bmp_not_surrogate c ∧ o = Return c.
Proof.
  unfold st.characters, bmp_not_surrogate. split.
  - intros (c & Hmax & Hcs & ->). exists c. split; [|done].
    split; [done|]. apply Hcs. apply list_elem_of_here.
  - intros (c & [Hmax Hcs] & ->). by exists c.
Qed.

Lemma text_draw o :
  st.text (st.characters ["Cs"] 0xFFFF) o
  ↔ ∃ v, Forall bmp_not_surrogate v ∧ o = Return v.
Proof.
  unfold st.text, st.lists. split.
  - intros [(l & _ & Hl & _ & ->) | (e & He & _)].
    + exists l. split; [|done].
      eapply Forall_impl; [exact Hl|]. simpl.
      intros c Hc. apply characters_draw in Hc as (c' & Hc' & [= <-]). done.
    + apply characters_draw in He as (c & _ & [=]).
  - intros (v & Hv & ->). left. exists v.
    split; [simpl; lia|]. split; [|done].
    eapply Forall_impl; [exact Hv|]. simpl.
    intros c Hc. apply characters_draw. by exists c.
Qed.

Lemma string_draw nullable o :
  primitives.string nullable o
  ↔ (∃ v, Forall bmp_not_surrogate v ∧ o = Return (StringValueNode v))
    ∨ (nullable = true ∧ o = Return NullValueNode).
Proof.
  unfold primitives.string. rewrite maybe_null_draw. unfold st.map.
  split.
  - intros [[(v & Hv & ->) | (e & He & ->)] | H]; [| |by right].
    + apply text_draw in Hv as (v' & Hv' & [= <-]). left. by exists v.
    + apply text_draw in He as (v' & _ & [=]).
  - intros [(v & Hv & ->) | H]; [left | by right].
    left. exists v. split; [|done]. apply text_draw. by exists v.
Qed.

Lemma int_draw nullable o :
  primitives.int_ nullable o
  ↔ (∃ v, (primitives.MIN_INT ≤ v ≤ primitives.MAX_INT)%Z
          ∧ o = Return (IntValueNode (str_int v)))
    ∨ (nullable = true ∧ o = Return NullValueNode).
Proof.
  unfold primitives.int_. rewrite maybe_null_draw.
  unfold st.map, st.integers. naive_solver.
Qed.

Lemma scalar_Return str_float name nullable :
  name ∈ supported_scalars ↔ is_Return (primitives.scalar str_float name nullable).
Proof.
  unfold primitives.scalar, supported_scalars, is_Return.
  repeat case_decide; subst; split; intros Hname; try by eauto.
  all: try set_solver.
  all: try by destruct Hname.
Qed.

Lemma scalar_Raise str_float name nullable :
  name ∉ supported_scalars →
  primitives.scalar str_float name nullable
  = Raise (TypeError "Custom scalar types are not supported").
Proof.
  unfold primitives.scalar, supported_scalars.
  intros Hname. repeat case_decide; subst; try done; set_solver.
Qed.

(** ** C7 and C8: the scalars *)

(** C7: [primitives.scalar] returns a strategy exactly for the names Int,
    Float, String, ID and Boolean and raises the custom scalar [TypeError] for
    every other name; for ID the strategy is the alternation of the String
    strategy and the Int strategy, so that a drawn ID is a string literal or
    an integer literal (or Null when nullable), and both occur. *)
Theorem scalar_supported_exactly (str_float : spec_float → string)
    (name : string) (nullable : bool) :
  (name ∈ supported_scalars
   ↔ is_Return (primitives.scalar str_float name nullable))
  ∧ (name ∉ supported_scalars
     ↔ primitives.scalar str_float name nullable
       = Raise (TypeError "Custom scalar types are not supported"))
  ∧ primitives.scalar str_float "ID" nullable
    = Return (primitives.string nullable ||| primitives.int_ nullable)
  ∧ (∀ o, primitives.id_ nullable o
          ↔ (∃ v, Forall bmp_not_surrogate v ∧ o = Return (StringValueNode v))
            ∨ (∃ v, (primitives.MIN_INT ≤ v ≤ primitives.MAX_INT)%Z
                    ∧ o = Return (IntValueNode (str_int v)))
            ∨ (nullable = true ∧ o = Return NullValueNode))
  ∧ primitives.id_ nullable (Return (StringValueNode []))
  ∧ primitives.id_ nullable (Return (IntValueNode "0")).
Proof.
  split; [apply scalar_Return|].
  split.
  { split; [apply scalar_Raise|].
    intros Hraise Hin. apply (scalar_Return str_float name nullable) in Hin.
    destruct Hin as [s Hs]. congruence. }
  split; [done|].
  assert (∀ o, primitives.id_ nullable o
          ↔ (∃ v, Forall bmp_not_surrogate v ∧ o = Return (StringValueNode v))
            ∨ (∃ v, (primitives.MIN_INT ≤ v ≤ primitives.MAX_INT)%Z
                    ∧ o = Return (IntValueNode (str_int v)))
            ∨ (nullable = true ∧ o = Return NullValueNode)) as Hid.
  { intros o. unfold primitives.id_, st.one_of.
    rewrite string_draw, int_draw. tauto. }
  split; [exact Hid|].
  split; apply Hid.
  - left. by exists [].
  - right; left. exists 0%Z. split; [|done].
    unfold primitives.MIN_INT, primitives.MAX_INT. lia.
Qed.

(** C8: a value drawn from the String strategy is Null (only when nullable) or
    a string literal all of whose code points are at most 0xFFFF and outside
    the surrogate block 0xD800..0xDFFF; the draw never raises. *)
Theorem string_no_surrogates (nullable : bool) (o : result ValueNode) :
  primitives.string nullable o →
  (nullable = true ∧ o = Return NullValueNode)
  ∨ (∃ v, o = Return (StringValueNode v)
          ∧ Forall (λ c, (c ≤ 0xFFFF)%N ∧ ¬ (0xD800 ≤ c ≤ 0xDFFF)%N) v).
Proof.
  rewrite string_draw. intros [(v & Hv & ->) | H]; [right | by left].
  by exists v.
Qed.

Lemma string_no_surrogates_witness :
  ∃ v, Return (StringValueNode [104; 105]%N) = Return (StringValueNode v)
       ∧ Forall (λ c, (c ≤ 0xFFFF)%N ∧ ¬ (0xD800 ≤ c ≤ 0xDFFF)%N) v.
Proof.
  destruct (string_no_surrogates false (Return (StringValueNode [104; 105]%N)))
    as [[? _] | H].
  - apply string_draw. left. eexists. split; [|done].
    repeat constructor; unfold st.is_surrogate; lia.
  - discriminate.
  - exact H.
Defined.

(** ** C2: the configuration errors of [query] *)

Lemma unknown_fields_spec schema root fields name :
  name ∈ unknown_fields schema root fields
  ↔ name ∈ fields ∧ name ∉ (object_fields schema root).*1.
Proof. unfold unknown_fields. rewrite list_elem_of_filter. tauto. Qed.

Lemma unknown_fields_nil schema root fields :
  unknown_fields schema root fields = []
  ↔ ¬ ∃ name, name ∈ fields ∧ name ∉ (object_fields schema root).*1.
Proof.
  split.
  - intros Hnil (name & Hname). apply unknown_fields_spec in Hname.
    rewrite Hnil in Hname. by apply elem_of_nil in Hname.
  - intros Hnone. destruct (unknown_fields schema root fields) as [|name l] eqn:E.
    + done.
    + exfalso. apply Hnone. exists name. apply unknown_fields_spec.
      rewrite E. apply list_elem_of_here.
Qed.

(** C2: for a schema that is given parsed or that parses, [query] raises
    exactly when the schema has no query type, when [fields] is given and
    empty, or when [fields] holds a name that the root type does not declare;
    what it raises is a [ValueError], and in the last case its message lists
    the unknown names of [fields], every one of them.  In every other case
    [query] returns a strategy. *)
Theorem query_configuration_errors (str_float : spec_float → string)
    (build_schema : string → result GraphQLSchema)
    (print_ast : DocumentNode → string)
    (depth : nat) (schema : string + GraphQLSchema) (parsed : GraphQLSchema)
    (fields : option (list string)) :
  parse build_schema schema = Return parsed →
  (∀ e, query str_float build_schema print_ast depth schema fields = Raise e
     ↔ (query_type parsed = None
        ∧ e = ValueError "Query type is not defined in the schema")
       ∨ (∃ root, query_type parsed = Some root
            ∧ fields = Some []
            ∧ e = ValueError "If you pass `fields`, it should not be empty")
       ∨ (∃ root names, query_type parsed = Some root
            ∧ fields = Some names
            ∧ (∃ name, name ∈ names ∧ name ∉ (object_fields parsed root).*1)
            ∧ e = ValueError ("Unknown fields: "
                   ++ String.concat ", " (unknown_fields parsed root names))
            ∧ ∀ name, name ∈ unknown_fields parsed root names
                      ↔ name ∈ names ∧ name ∉ (object_fields parsed root).*1))
  ∧ (is_Return (query str_float build_schema print_ast depth schema fields)
     ∨ ∃ msg, query str_float build_schema print_ast depth schema fields
              = Raise (ValueError msg)).
Proof.
  intros Hparse. unfold query. rewrite Hparse. simpl.
  destruct (query_type parsed) as [root|] eqn:Hroot; simpl.
  2: { split; [|right; eauto].
       intros e. split.
       - intros [= <-]. by left.
       - intros [[_ ->] | [(root & [=] & _) | (root & names & [=] & _)]]. done. }
  destruct fields as [[|name names]|]; simpl.
  - split; [|right; eauto].
    intros e. split.
    + intros [= <-]. right; left. by exists root.
    + intros [[[=] _] | [(root' & _ & _ & ->) | (root' & names & [= <-] & [= <-]
                & (name & Hname & _) & _)]]; [done|].
      by apply elem_of_nil in Hname.
  - fold (unknown_fields parsed root (name :: names)).
    destruct (unknown_fields parsed root (name :: names)) as [|bad rest] eqn:Hbad.
    + simpl. split; [|left; eexists; done].
      intros e. split; [done|].
      intros [[[=] _] | [(root' & _ & [=] & _) | (root' & names' & [= <-] & [= <-]
                & Hex & _)]].
      exfalso. by apply (unknown_fields_nil parsed root (name :: names)).
    + simpl. split; [|right; eauto].
      intros e. split.
      * intros [= <-]. right; right. exists root, (name :: names).
        split; [done|]. split; [done|]. split.
        { exists bad. apply unknown_fields_spec. rewrite Hbad.
          apply list_elem_of_here. }
        split; [by rewrite Hbad|].
        intros name'. apply unknown_fields_spec.
      * intros [[[=] _] | [(root' & _ & [=] & _) | (root' & names' & [= <-] & [= <-]
                  & _ & -> & _)]].
        by rewrite Hbad.
  - split; [|left; eexists; done].
    intros e. split; [done|].
    intros [[[=] _] | [(root' & _ & [=] & _) | (root' & names' & _ & [=] & _)]].
Qed.

Lemma query_configuration_errors_witness :
  query (λ _, "0.0") (λ _, Raise (GraphQLError "Syntax Error")) (λ _, "")
        1 (inr required_date_schema) (Some ["created"; "wrong"; "getByDate"; "no"])
  = Raise (ValueError "Unknown fields: created, wrong, no").
Proof.
  apply (query_configuration_errors (λ _, "0.0")
           (λ _, Raise (GraphQLError "Syntax Error")) (λ _, "")
           1 (inr required_date_schema) required_date_schema
           (Some ["created"; "wrong"; "getByDate"; "no"]) eq_refl).
  right; right. exists "Query", ["created"; "wrong"; "getByDate"; "no"].
  split; [reflexivity|]. split; [reflexivity|].
  split.
  { exists "wrong". split; [set_solver|]. vm_compute. set_solver. }
  split; [vm_compute; reflexivity|].
  apply unknown_fields_spec.
Defined.

(** ** C9: the schema cache *)

Section CacheFacts.
Variable build_schema : string → result GraphQLSchema.

Lemma cached_build_schema_hit source s parsed :
  cache.entries s !! source = Some parsed →
  cache.cached_build_schema build_schema source s = (Return parsed, s).
Proof. intros Hhit. unfold cache.cached_build_schema. by rewrite Hhit. Qed.

Lemma cached_build_schema_stores source s parsed s' :
  cache.cached_build_schema build_schema source s = (Return parsed, s') →
  cache.entries s' !! source = Some parsed.
Proof.
  unfold cache.cached_build_schema.
  destruct (cache.entries s !! source) as [hit|] eqn:Hlookup.
  - intros [= <- <-]. done.
  - destruct (build_schema source) as [parsed_graph|e]; [|done].
    intros [= <- <-]. simpl. apply lookup_insert_eq.
Qed.

Lemma cached_build_schema_keeps source other s parsed :
  cache.entries s !! source = Some parsed →
  cache.entries (cache.cached_build_schema build_schema other s).2 !! source
  = Some parsed.
Proof.
  intros Hhit. unfold cache.cached_build_schema.
  destruct (cache.entries s !! other) as [hit|] eqn:Hlookup; [done|].
  destruct (build_schema other) as [parsed_graph|e]; [|done].
  simpl. rewrite lookup_insert_ne; [done|]. congruence.
Qed.

Lemma resolve_all_keeps source others s parsed :
  cache.entries s !! source = Some parsed →
  cache.entries (cache.resolve_all build_schema others s) !! source
  = Some parsed.
Proof.
  revert s. induction others as [|other others IH]; intros s Hhit; [done|].
  simpl. apply IH. by apply cached_build_schema_keeps.
Qed.
End CacheFacts.

(** C9: once a source text has been resolved to a schema instance, the cache
    holds that instance under the text, and resolving the same text again,
    directly or after any other texts have been resolved in between, returns
    the same instance and leaves the cache as it is: nothing is evicted and
    nothing is parsed again. *)
Theorem cached_build_schema_same_instance
    (build_schema : string → result GraphQLSchema)
    (source : string) (others : list string)
    (s s' : cache.State) (parsed : cache.SchemaInstance) :
  cache.cached_build_schema build_schema source s = (Return parsed, s') →
  cache.entries s' !! source = Some parsed
  ∧ cache.cached_build_schema build_schema source s' = (Return parsed, s')
  ∧ cache.cached_build_schema build_schema source
      (cache.resolve_all build_schema others s')
    = (Return parsed, cache.resolve_all build_schema others s').
Proof.
  intros Hfirst. apply cached_build_schema_stores in Hfirst.
  split; [done|]. split.
  - by apply cached_build_schema_hit.
  - apply cached_build_schema_hit. by apply resolve_all_keeps.
Qed.

Lemma cached_build_schema_same_instance_witness :
  let build_schema := λ _ : string, Return required_date_schema in
  let first := cache.cached_build_schema build_schema "type Query"
                 (cache.mkState ∅ 0) in
  first.1 = Return (cache.mkSchemaInstance 0 required_date_schema)
  ∧ cache.cached_build_schema build_schema "type Query"
      (cache.resolve_all build_schema ["scalar Date"; "type Object"] first.2)
    = (Return (cache.mkSchemaInstance 0 required_date_schema),
       cache.resolve_all build_schema ["scalar Date"; "type Object"] first.2).
Proof.
  intros build_schema first. split; [reflexivity|].
  apply (cached_build_schema_same_instance build_schema "type Query"
           ["scalar Date"; "type Object"] (cache.mkState ∅ 0) first.2
           (cache.mkSchemaInstance 0 required_date_schema)).
  reflexivity.
Defined.

(** ** Building value strategies *)

Section ValueFacts.
Variable str_float : spec_float → string.
Variable schema : GraphQLSchema.

(** [value_nodes] in the words of the source: dispatch on what
    [check_nullable] gives. *)
Lemma value_nodes_check_nullable depth type_ :
  value_nodes str_float schema depth type_
  = value_nodes_of str_float schema
      (value_nodes str_float schema depth)
      (value_nodes_deeper str_float schema depth)
      (check_nullable type_).1 (check_nullable type_).2.
Proof. destruct depth, type_; reflexivity. Qed.

Lemma lists_Raise value_nodes of_type nullable e :
  lists value_nodes of_type nullable = Raise e ↔ value_nodes of_type = Raise e.
Proof.
  unfold lists. destruct (value_nodes of_type) as [elements|e']; simpl.
  - split; discriminate.
  - split; by intros [= <-].
Qed.

Lemma scalar_raises_TypeError name nullable e :
  primitives.scalar str_float name nullable = Raise e →
  e = TypeError "Custom scalar types are not supported".
Proof.
  unfold primitives.scalar. repeat case_decide; try discriminate.
  by intros [= <-].
Qed.

(** Whatever [value_nodes] raises is a [TypeError]. *)
Lemma value_nodes_raises_TypeError depth type_ :
  (∀ e, value_nodes str_float schema depth type_ = Raise e →
        ∃ msg, e = TypeError msg)
  ∧ (∀ nullable e,
       value_nodes_of str_float schema (value_nodes str_float schema depth)
         (value_nodes_deeper str_float schema depth) type_ nullable = Raise e →
       ∃ msg, e = TypeError msg).
Proof.
  induction type_ as [name|name values|name|name|name|name types
                      |of_type [IH1 IH2]|of_type [IH1 IH2]];
    (split; [intros e; rewrite value_nodes_check_nullable|intros nullable e]);
    simpl; try (intros [= <-]; eauto; fail); try discriminate.
  - intros ->%scalar_raises_TypeError. eauto.
  - intros ->%scalar_raises_TypeError. eauto.
  - rewrite lists_Raise. apply IH1.
  - rewrite lists_Raise. apply IH1.
  - apply IH2.
Qed.

(** A custom scalar at the leaf makes [value_nodes] raise. *)
Lemma value_nodes_custom_scalar depth type_ :
  custom_scalar_leaf type_ = true →
  (∃ msg, value_nodes str_float schema depth type_ = Raise (TypeError msg))
  ∧ (∀ nullable, ∃ msg,
       value_nodes_of str_float schema (value_nodes str_float schema depth)
         (value_nodes_deeper str_float schema depth) type_ nullable
       = Raise (TypeError msg)).
Proof.
  unfold custom_scalar_leaf.
  induction type_ as [name|name values|name|name|name|name types
                      |of_type IH|of_type IH];
    simpl; try discriminate; intros Hleaf.
  - apply bool_decide_eq_true in Hleaf.
    rewrite value_nodes_check_nullable. simpl.
    split; [|intros nullable]; rewrite scalar_Raise by done; eauto.
  - destruct (IH Hleaf) as [[msg Hmsg] _].
    rewrite value_nodes_check_nullable. simpl.
    assert (∀ nullable, ∃ msg,
      lists (value_nodes str_float schema depth) of_type nullable
      = Raise (TypeError msg)) as Hlists.
    { intros nullable. exists msg. by apply lists_Raise. }
    split; [apply Hlists|exact Hlists].
  - destruct (IH Hleaf) as [_ Hof].
    rewrite value_nodes_check_nullable. simpl.
    split; [apply Hof|]. eauto.
Qed.

(** Without a custom scalar at the leaf, an input type gets a strategy. *)
Lemma value_nodes_supported depth type_ :
  input_type type_ = true → custom_scalar_leaf type_ = false →
  is_Return (value_nodes str_float schema depth type_)
  ∧ (is_non_null type_ = false → ∀ nullable,
       is_Return
         (value_nodes_of str_float schema (value_nodes str_float schema depth)
            (value_nodes_deeper str_float schema depth) type_ nullable)).
Proof.
  unfold custom_scalar_leaf, is_Return.
  induction type_ as [name|name values|name|name|name|name types
                      |of_type IH|of_type IH];
    simpl; try discriminate; intros Hinput Hleaf;
    rewrite value_nodes_check_nullable; simpl.
  - apply bool_decide_eq_false in Hleaf.
    assert (name ∈ supported_scalars) as Hname
      by (destruct (decide (name ∈ supported_scalars)); tauto).
    split; [|intros _ nullable]; by apply scalar_Return.
  - split; [|intros _ nullable]; eauto.
  - split; [|intros _ nullable]; eauto.
  - destruct (IH Hinput Hleaf) as [[elements Helements] _].
    unfold lists. rewrite Helements. simpl.
    split; [|intros _ nullable]; eauto.
  - apply andb_true_iff in Hinput as [Hnn Hinput].
    apply negb_true_iff in Hnn.
    destruct (IH Hinput Hleaf) as [_ Hof].
    split; [by apply Hof|discriminate].
Qed.
End ValueFacts.

(** ** Draws of the combinators *)

Section Draws.
Context {A B C : Type}.

Lemma just_Return (value a : A) : st.just value (Return a) ↔ a = value.
Proof. unfold st.just. split; [by intros [= ->] | by intros ->]. Qed.

Lemma map_Return (pack : A → B) s b :
  st.map pack s (Return b) ↔ ∃ a, s (Return a) ∧ b = pack a.
Proof.
  unfold st.map. split.
  - intros [(a & Ha & [= ->]) | (e & _ & [=])]. eauto.
  - intros (a & Ha & ->). left. eauto.
Qed.

Lemma map_Raise (pack : A → B) s e :
  st.map pack s (Raise e) ↔ s (Raise e).
Proof.
  unfold st.map. split.
  - intros [(a & _ & [=]) | (e' & He & [= ->])]. done.
  - intros He. right. eauto.
Qed.

Lemma sampled_from_Return (elements : list A) a :
  st.sampled_from elements (Return a) ↔ a ∈ elements.
Proof.
  unfold st.sampled_from. split.
  - by intros (a' & Ha & [= ->]).
  - intros Ha. eauto.
Qed.

Lemma lists_Return (elements : SearchStrategy A) min_size unique_by l :
  st.lists elements min_size unique_by (Return l)
  ↔ min_size ≤ length l
    ∧ Forall (λ a, elements (Return a)) l
    ∧ ∀ key, unique_by = Some key → NoDup (key <$> l).
Proof.
  unfold st.lists. split.
  - intros [(l' & Hlen & Hall & Hkey & [= ->]) | (e & _ & [=])]. done.
  - intros (Hlen & Hall & Hkey). left. exists l. done.
Qed.

Lemma tuples_Return (args : list (SearchStrategy A)) l :
  st.tuples args (Return l) ↔ Forall2 (λ s a, s (Return a)) args l.
Proof.
  unfold st.tuples. split.
  - intros [(l' & Hall & [= ->]) | (? & ? & ? & ? & ? & _ & _ & _ & [=])]. done.
  - intros Hall. left. eauto.
Qed.

Lemma flatmap_Return (s : SearchStrategy A) (expand : A → result (SearchStrategy B)) b :
  st.flatmap s expand (Return b)
  ↔ ∃ a t, s (Return a) ∧ expand a = Return t ∧ t (Return b).
Proof.
  unfold st.flatmap. split.
  - intros [(a & Ha & Hexpand) | (e & _ & [=])].
    destruct (expand a) as [t|e] eqn:E; [eauto|discriminate].
  - intros (a & t & Ha & Hexpand & Ht). left. exists a. by rewrite Hexpand.
Qed.

Lemma flatmap_expand_Raise (s : SearchStrategy A)
    (expand : A → result (SearchStrategy B)) a e :
  s (Return a) → expand a = Raise e → st.flatmap s expand (Raise e).
Proof. intros Ha Hexpand. left. exists a. by rewrite Hexpand. Qed.

Lemma builds2_Return (target : A → B → C) kw1 kw2 c :
  st.builds2 target kw1 kw2 (Return c)
  ↔ ∃ a b, kw1 (Return a) ∧ kw2 (Return b) ∧ c = target a b.
Proof.
  unfold st.builds2. split.
  - intros [(a & b & Ha & Hb & [= ->]) | [(e & _ & [=]) | (a & e & _ & _ & [=])]].
    eauto.
  - intros (a & b & Ha & Hb & ->). left. eauto.
Qed.
End Draws.

Lemma mapM_Return {A B} (f : A → result B) (l : list A) (k : list B) :
  mapM f l = Return k ↔ Forall2 (λ a b, f a = Return b) l k.
Proof.
  revert k. induction l as [|a l IH]; intros k; simpl.
  - split; [intros [= <-]; constructor | by intros ->%Forall2_nil_inv_l].
  - destruct (f a) as [b|e] eqn:Hfa; simpl.
    + destruct (mapM f l) as [k'|e] eqn:Hl; simpl.
      * unfold mret, result_ret. split.
        -- intros [= <-]. constructor; [done|]. by apply IH.
        -- intros (b' & k'' & Hb' & Hk'' & ->)%Forall2_cons_inv_l.
           apply IH in Hk''. congruence.
      * split; [discriminate|].
        intros (b' & k'' & Hb' & Hk'' & ->)%Forall2_cons_inv_l.
        apply IH in Hk''. discriminate.
    + split; [discriminate|].
      intros (b' & k'' & Hb' & Hk'' & ->)%Forall2_cons_inv_l. congruence.
Qed.

Lemma mapM_Raise {A B} (f : A → result B) (l : list A) a e :
  a ∈ l → f a = Raise e → (∀ a' e', f a' = Raise e' → e' = e) →
  mapM f l = Raise e.
Proof.
  intros Ha Hfa Honly. induction l as [|a' l IH]; [by apply elem_of_nil in Ha|].
  simpl. destruct (f a') as [b|e'] eqn:Hfa'; simpl.
  - apply elem_of_cons in Ha as [->|Ha]; [congruence|].
    by rewrite (IH Ha).
  - f_equal. by apply (Honly a').
Qed.

Lemma NoDup_fst_inj {K V} (l : list (K * V)) k v v' :
  NoDup l.*1 → (k, v) ∈ l → (k, v') ∈ l → v = v'.
Proof.
  induction l as [|[k0 v0] l IH]; simpl; intros Hnodup Hv Hv'.
  - by apply elem_of_nil in Hv.
  - apply NoDup_cons in Hnodup as [Hk0 Hnodup].
    apply elem_of_cons in Hv as [Hv|Hv];
      apply elem_of_cons in Hv' as [Hv'|Hv']; simplify_eq.
    + done.
    + exfalso. apply Hk0. apply list_elem_of_fmap. by exists (k0, v').
    + exfalso. apply Hk0. apply list_elem_of_fmap. by exists (k0, v).
    + by apply IH.
Qed.

(** ** Building the arguments of a field *)

Section ArgumentFacts.
Variable str_float : spec_float → string.
Variable schema : GraphQLSchema.
Variable depth : nat.

Local Abbreviation argument_values' := (argument_values str_float schema depth).
Local Abbreviation has_strategy' := (has_strategy str_float schema depth).
Local Abbreviation list_of_arguments_args' := (list_of_arguments_args str_float schema depth).
Local Abbreviation list_of_arguments' := (list_of_arguments str_float schema depth).

Lemma has_strategy_false item :
  has_strategy' item = false
  ↔ ∃ msg, argument_values' item.2 = Raise (TypeError msg).
Proof.
  unfold has_strategy. split.
  - destruct (argument_values' item.2) as [v|e] eqn:E; [discriminate|].
    intros _. apply value_nodes_raises_TypeError in E as [msg ->]. eauto.
  - by intros [msg ->].
Qed.

Lemma has_strategy_custom_scalar item :
  custom_scalar_leaf (argument_type item.2) = true → has_strategy' item = false.
Proof.
  intros Hleaf. apply has_strategy_false.
  by apply (value_nodes_custom_scalar str_float schema depth).
Qed.

Lemma has_strategy_supported item :
  input_type (argument_type item.2) = true →
  custom_scalar_leaf (argument_type item.2) = false →
  has_strategy' item = true.
Proof.
  intros Hinput Hleaf. unfold has_strategy, argument_values.
  by destruct (value_nodes_supported str_float schema depth _ Hinput Hleaf)
    as [[v ->] _].
Qed.

(** One turn of the loop, by what [argument_values'] did. *)
Lemma list_of_arguments_args_kept name argument kwargs v :
  argument_values' argument = Return v →
  list_of_arguments_args' ((name, argument) :: kwargs)
  = args ← list_of_arguments_args' kwargs;
    Return (st.builds (mkArgumentNode (mkNameNode name)) v :: args).
Proof. intros Hv. simpl. by rewrite Hv. Qed.

Lemma list_of_arguments_args_skipped name argument kwargs :
  has_strategy' (name, argument) = false →
  is_non_null (argument_type argument) = false →
  list_of_arguments_args' ((name, argument) :: kwargs)
  = list_of_arguments_args' kwargs.
Proof.
  intros [msg Hmsg]%has_strategy_false Hnullable. simpl in *.
  by rewrite Hmsg, Hnullable.
Qed.

Lemma list_of_arguments_args_refused name argument kwargs :
  has_strategy' (name, argument) = false →
  is_non_null (argument_type argument) = true →
  list_of_arguments_args' ((name, argument) :: kwargs)
  = Raise not_supported_as_argument.
Proof.
  intros [msg Hmsg]%has_strategy_false Hrequired. simpl in *.
  by rewrite Hmsg, Hrequired.
Qed.

Lemma list_of_arguments_args_cases (name : string) argument :
  (∃ v, argument_values' argument = Return v)
  ∨ (has_strategy' (name, argument) = false).
Proof.
  unfold has_strategy. simpl.
  destruct (argument_values' argument); eauto.
Qed.

(** The loop raises nothing but the error about non-null custom scalars. *)
Lemma list_of_arguments_args_Raise kwargs e :
  list_of_arguments_args' kwargs = Raise e → e = not_supported_as_argument.
Proof.
  induction kwargs as [|[name argument] kwargs IH]; [discriminate|].
  destruct (list_of_arguments_args_cases name argument) as [[v Hv]|Hno].
  - rewrite (list_of_arguments_args_kept _ _ _ _ Hv).
    destruct (list_of_arguments_args' kwargs); [discriminate|].
    simpl. intros [= <-]. by apply IH.
  - destruct (is_non_null (argument_type argument)) eqn:Hnn.
    + rewrite list_of_arguments_args_refused by done. by intros [= <-].
    + rewrite list_of_arguments_args_skipped by done. exact IH.
Qed.

(** A non-null argument without a strategy makes the loop raise. *)
Lemma list_of_arguments_args_required kwargs name argument :
  (name, argument) ∈ kwargs →
  has_strategy' (name, argument) = false →
  is_non_null (argument_type argument) = true →
  list_of_arguments_args' kwargs = Raise not_supported_as_argument.
Proof.
  intros Hin Hno Hrequired.
  induction kwargs as [|[name' argument'] kwargs IH];
    [by apply elem_of_nil in Hin|].
  apply elem_of_cons in Hin as [[= <- <-]|Hin].
  { by apply list_of_arguments_args_refused. }
  destruct (list_of_arguments_args_cases name' argument') as [[v Hv]|Hno'].
  - rewrite (list_of_arguments_args_kept _ _ _ _ Hv). by rewrite (IH Hin).
  - destruct (is_non_null (argument_type argument')) eqn:Hnn.
    + by apply list_of_arguments_args_refused.
    + rewrite list_of_arguments_args_skipped by done. by apply IH.
Qed.

(** A nullable argument without a strategy is passed over. *)
Lemma list_of_arguments_args_omit before name argument after :
  has_strategy' (name, argument) = false →
  is_non_null (argument_type argument) = false →
  list_of_arguments_args' (before ++ (name, argument) :: after)
  = list_of_arguments_args' (before ++ after).
Proof.
  intros Hno Hnullable.
  induction before as [|[name' argument'] before IH]; simpl app.
  { by apply list_of_arguments_args_skipped. }
  destruct (list_of_arguments_args_cases name' argument') as [[v Hv]|Hno'].
  - rewrite !(list_of_arguments_args_kept _ _ _ _ Hv). by rewrite IH.
  - destruct (is_non_null (argument_type argument')) eqn:Hnn.
    + by rewrite !list_of_arguments_args_refused.
    + by rewrite !list_of_arguments_args_skipped.
Qed.

(** What the loop collects: one strategy for each argument that has one, in
    the order of the declarations; the others are nullable. *)
Lemma list_of_arguments_args_Return kwargs args :
  list_of_arguments_args' kwargs = Return args →
  Forall2 (λ item s, ∃ v, argument_values' item.2 = Return v
                          ∧ s = st.builds (mkArgumentNode (mkNameNode item.1)) v)
          (filter (λ item, has_strategy' item = true) kwargs) args
  ∧ Forall (λ item, has_strategy' item = false →
                    is_non_null (argument_type item.2) = false) kwargs.
Proof.
  revert args. induction kwargs as [|[name argument] kwargs IH]; intros args.
  { intros [= <-]. split; constructor. }
  destruct (list_of_arguments_args_cases name argument) as [[v Hv]|Hno].
  - rewrite (list_of_arguments_args_kept _ _ _ _ Hv).
    destruct (list_of_arguments_args' kwargs) as [args'|e]; [|discriminate].
    intros [= <-]. destruct (IH args' eq_refl) as [Hargs Hnullable].
    assert (has_strategy' (name, argument) = true) as Hyes.
    { unfold has_strategy. simpl. by rewrite Hv. }
    split.
    + rewrite filter_cons_True by done. constructor; [|done]. eauto.
    + constructor; [|done]. simpl. congruence.
  - destruct (is_non_null (argument_type argument)) eqn:Hnn.
    + by rewrite list_of_arguments_args_refused.
    + rewrite list_of_arguments_args_skipped by done.
      intros Hargs. destruct (IH args Hargs) as [Hargs' Hnullable].
      split.
      * rewrite filter_cons_False by congruence. done.
      * constructor; done.
Qed.

Lemma list_of_arguments_Raise kwargs e :
  list_of_arguments' kwargs = Raise e → e = not_supported_as_argument.
Proof.
  unfold list_of_arguments.
  destruct (list_of_arguments_args' kwargs) as [args|e'] eqn:E; [discriminate|].
  intros [= <-]. by apply list_of_arguments_args_Raise in E.
Qed.

(** The names of the argument nodes of a draw. *)
Lemma list_of_arguments_draw kwargs s l :
  list_of_arguments' kwargs = Return s → s (Return l) →
  argument_names l = (filter (λ item, has_strategy' item = true) kwargs).*1.
Proof.
  unfold list_of_arguments.
  destruct (list_of_arguments_args' kwargs) as [args|e] eqn:E; [|discriminate].
  intros [= <-] (l' & Hl' & ->)%map_Return.
  apply tuples_Return in Hl'. unfold list_.
  apply list_of_arguments_args_Return in E as [Hargs _].
  revert l' Hl'.
  induction Hargs as [|item arg items args (v & Hv & ->) Hargs IH]; intros l' Hl'.
  - by apply Forall2_nil_inv_l in Hl' as ->.
  - apply Forall2_cons_inv_l in Hl' as (node & l'' & Hnode & Hl'' & ->).
    apply map_Return in Hnode as (value & _ & ->).
    simpl. f_equal. by apply IH.
Qed.
End ArgumentFacts.

Section FieldFacts.
Variable str_float : spec_float → string.
Variable schema : GraphQLSchema.
Variable depth : nat.

Lemma list_of_arguments_args_is_Return kwargs :
  Forall (λ item, has_strategy str_float schema depth item = false →
                  is_non_null (argument_type item.2) = false) kwargs →
  is_Return (list_of_arguments_args str_float schema depth kwargs).
Proof.
  induction 1 as [|[name argument] kwargs Hitem _ [args IH]].
  { by exists []. }
  destruct (list_of_arguments_args_cases str_float schema depth name argument)
    as [[v Hv]|Hno].
  - rewrite (list_of_arguments_args_kept _ _ _ _ _ _ _ Hv), IH. simpl.
    by eexists.
  - rewrite list_of_arguments_args_skipped by auto. by exists args.
Qed.
End FieldFacts.

(** ** Choosing the fields *)

Lemma sorted_Permutation {F} (items : list (string * F)) : sorted items ≡ₚ items.
Proof. apply merge_sort_Permutation. Qed.

Lemma sorted_elem_of {F} (items : list (string * F)) item :
  item ∈ sorted items ↔ item ∈ items.
Proof. by rewrite sorted_Permutation. Qed.

Lemma sorted_by_name {F} (items : list (string * F)) :
  StronglySorted (λ x y, String.le x.1 y.1) (sorted items).
Proof.
  apply StronglySorted_merge_sort.
  - intros x y z Hxy Hyz. by etrans.
  - intros x y. apply (total String.le).
Qed.

Lemma subset_of_fields_Return {F} (all_fields items : list (string * F)) :
  subset_of_fields all_fields (Return items)
  ↔ items ≠ [] ∧ Forall (λ item, item ∈ all_fields) items ∧ NoDup items.*1.
Proof.
  unfold subset_of_fields. rewrite lists_Return. split.
  - intros (Hlen & Hall & Hkey). split; [|split].
    + intros ->. simpl in Hlen. lia.
    + eapply Forall_impl; [exact Hall|]. simpl.
      intros item. rewrite sampled_from_Return. apply sorted_elem_of.
    + by apply Hkey.
  - intros (Hne & Hall & Hkey). split; [|split].
    + destruct items; [done|]. simpl. lia.
    + eapply Forall_impl; [exact Hall|]. simpl.
      intros item. rewrite sampled_from_Return. apply sorted_elem_of.
    + by intros key [= <-].
Qed.

Lemma eligible_object_fields schema object_type fields item :
  item ∈ eligible schema object_type fields →
  item ∈ object_fields schema object_type.
Proof.
  unfold eligible. destruct fields as [[|name names]|]; try done.
  by intros [_ Hin]%list_elem_of_filter.
Qed.

Lemma eligible_restricted schema object_type name names item :
  item ∈ eligible schema object_type (Some (name :: names)) →
  item.1 ∈ name :: names.
Proof. unfold eligible. by intros [Hin _]%list_elem_of_filter. Qed.

(** ** Building and drawing selections *)

Section SelectionFacts.
Variable str_float : spec_float → string.
Variable schema : GraphQLSchema.

Local Abbreviation has_strategy' := (has_strategy str_float schema).
Local Abbreviation list_of_arguments' := (list_of_arguments str_float schema).
Local Abbreviation field_nodes' := (field_nodes str_float schema).
Local Abbreviation lists_of_field_nodes' := (lists_of_field_nodes str_float schema).
Local Abbreviation _fields' := (_fields str_float schema).

Lemma field_nodes_Raise depth F name field e :
  field_nodes' depth F name field = Raise e → e = not_supported_as_argument.
Proof.
  unfold field_nodes.
  destruct (list_of_arguments' depth (args field)) as [arguments|e'] eqn:E;
    [discriminate|].
  intros [= <-]. by apply list_of_arguments_Raise in E.
Qed.

Lemma field_nodes_required depth F name field :
  requires_custom_scalar field →
  field_nodes' depth F name field = Raise not_supported_as_argument.
Proof.
  intros (aname & argument & Hin & Hrequired & Hleaf).
  unfold field_nodes, list_of_arguments.
  rewrite (list_of_arguments_args_required _ _ _ _ aname argument); try done.
  by apply has_strategy_custom_scalar.
Qed.

Lemma field_nodes_draw depth F name field s node :
  field_nodes' depth F name field = Return s → s (Return node) →
  ∃ arguments selections,
    node = FieldNode (mkNameNode name) arguments
                     (make_selection_set_node selections)
    ∧ argument_names arguments
      = (filter (λ item, has_strategy' depth item = true) (args field)).*1
    ∧ fields_for_type F field (Return selections).
Proof.
  unfold field_nodes.
  destruct (list_of_arguments' depth (args field)) as [arguments_s|e] eqn:E;
    [|discriminate].
  intros [= <-] (arguments & ss & Harguments & Hss & ->)%builds2_Return.
  apply map_Return in Hss as (selections & Hselections & ->).
  exists arguments, selections. split; [done|]. split; [|done].
  by eapply list_of_arguments_draw.
Qed.

Lemma lists_of_field_nodes_draw depth F items s l :
  lists_of_field_nodes' depth F items = Return s → s (Return l) →
  Forall2 (λ item node, ∃ node_s,
             field_nodes' depth F item.1 item.2 = Return node_s
             ∧ node_s (Return node)) items l.
Proof.
  unfold lists_of_field_nodes, list_of_nodes.
  destruct (mapM _ items) as [nodes|e] eqn:E; [|discriminate].
  intros [= <-] (l' & Hl' & ->)%map_Return.
  apply tuples_Return in Hl'. apply mapM_Return in E. unfold list_.
  revert l' Hl'. induction E as [|item node_s items nodes Hitem E IH];
    intros l' Hl'.
  - apply Forall2_nil_inv_l in Hl' as ->. constructor.
  - apply Forall2_cons_inv_l in Hl' as (node & l'' & Hnode & Hl'' & ->).
    constructor; [eauto|]. by apply IH.
Qed.

Lemma lists_of_field_nodes_required depth F items name field :
  (name, field) ∈ items → requires_custom_scalar field →
  lists_of_field_nodes' depth F items = Raise not_supported_as_argument.
Proof.
  intros Hin Hrequired.
  unfold lists_of_field_nodes, list_of_nodes.
  rewrite (mapM_Raise _ items (name, field) not_supported_as_argument); try done.
  - by apply field_nodes_required.
  - intros item e. apply field_nodes_Raise.
Qed.

(** A draw of [_fields']: the items chosen and the node drawn for each. *)
Lemma _fields_draw depth object_type fields l :
  _fields' depth object_type fields (Return l) →
  ∃ depth' items,
    depth = S depth'
    ∧ items ≠ [] ∧ NoDup items.*1
    ∧ Forall (λ item, item ∈ eligible schema object_type fields) items
    ∧ Forall2 (λ item node, ∃ node_s,
                 field_nodes' depth' (_fields' depth') item.1 item.2 = Return node_s
                 ∧ node_s (Return node)) items l.
Proof.
  destruct depth as [|depth']; [done|]. simpl.
  intros (items & s & Hitems & Hs & Hl)%flatmap_Return.
  apply subset_of_fields_Return in Hitems as (Hne & Hall & Hnodup).
  exists depth', items. repeat split; try done.
  by eapply lists_of_field_nodes_draw.
Qed.

(** A draw that chooses a field with a non-null custom scalar argument
    raises. *)
Lemma _fields_required depth object_type fields name field :
  (name, field) ∈ eligible schema object_type fields →
  requires_custom_scalar field →
  _fields' (S depth) object_type fields (Raise not_supported_as_argument).
Proof.
  intros Hin Hrequired. simpl.
  apply (flatmap_expand_Raise _ _ [(name, field)]).
  - apply subset_of_fields_Return. split; [done|]. split.
    + by apply Forall_singleton.
    + apply NoDup_singleton.
  - apply (lists_of_field_nodes_required _ _ _ name field); [|done].
    apply list_elem_of_here.
Qed.

(** No selection that is drawn holds such a field. *)
Lemma _fields_never_required depth object_type fields name field l :
  NoDup (object_fields schema object_type).*1 →
  (name, field) ∈ object_fields schema object_type →
  requires_custom_scalar field →
  _fields' depth object_type fields (Return l) →
  Some name ∉ field_name <$> l.
Proof.
  intros Hnodup Hin Hrequired Hdraw.
  apply _fields_draw in Hdraw
    as (depth' & items & -> & _ & _ & Heligible & Hnodes).
  intros (node & Hname & Hnode)%list_elem_of_fmap.
  apply list_elem_of_lookup in Hnode as [i Hnode].
  destruct (Forall2_lookup_r _ _ _ _ _ Hnodes Hnode)
    as ([name' field'] & Hitem & node_s & Hnode_s & Hdrawn).
  simpl in *.
  destruct (field_nodes_draw _ _ _ _ _ _ Hnode_s Hdrawn)
    as (arguments & selections & -> & _).
  simpl in Hname. injection Hname as <-.
  assert ((name, field') ∈ object_fields schema object_type) as Hin'.
  { eapply eligible_object_fields.
    eapply (proj1 (Forall_forall _ _) Heligible).
    by eapply list_elem_of_lookup_2. }
  rewrite (NoDup_fst_inj _ _ _ _ Hnodup Hin' Hin) in Hnode_s.
  by rewrite field_nodes_required in Hnode_s.
Qed.
End SelectionFacts.

(** ** The selections of a draw fit the schema and are nowhere empty *)

Section SelectionInvariant.
Variable str_float : spec_float → string.
Variable schema : GraphQLSchema.

Lemma inline_fragment_draw F member node :
  inline_fragment F member (Return node) →
  ∃ l, node = InlineFragmentNode (mkNamedTypeNode (mkNameNode member))
                                 (make_selection_set_node (Some l))
       ∧ F member None (Return l).
Proof.
  unfold inline_fragment, st.builds.
  intros (ss & (selections & (l & Hl & ->)%map_Return & ->)%map_Return & ->)%map_Return.
  eauto.
Qed.

Lemma inline_fragments_draw F items s l :
  inline_fragments F items = Return s → s (Return l) →
  Forall2 (λ member node, inline_fragment F member (Return node)) items l.
Proof.
  unfold inline_fragments. intros [= <-] (l' & Hl' & ->)%map_Return.
  apply tuples_Return in Hl'. by apply Forall2_fmap_l in Hl'.
Qed.

(** The draws of [fields_for_type], by the unwrapped type of the field. *)
Lemma fields_for_type_draw F field selections :
  fields_for_type F field (Return selections) →
  match unwrap (field_type field) with
  | GraphQLObjectType name =>
      ∃ l, selections = Some l ∧ F name None (Return l)
  | GraphQLUnionType _ types =>
      ∃ l members, selections = Some l ∧ members ≠ []
        ∧ Forall (λ member, member ∈ types) members
        ∧ Forall2 (λ member node, inline_fragment F member (Return node))
                  members l
  | _ => selections = None
  end.
Proof.
  unfold fields_for_type.
  destruct (unwrap (field_type field)) as [| | |name| |name types| |];
    try (by intros [= ->]%just_Return).
  - intros (l & Hl & ->)%map_Return. eauto.
  - intros (l & (members & s & Hmembers & Hs & Hl)%flatmap_Return & ->)%map_Return.
    apply lists_Return in Hmembers as (Hlen & Hall & _).
    exists l, members. split; [done|]. split; [|split].
    + intros ->. simpl in Hlen. lia.
    + eapply Forall_impl; [exact Hall|]. simpl.
      intros member. by rewrite sampled_from_Return.
    + by eapply inline_fragments_draw.
Qed.

Lemma fields_for_type_ok F field selections :
  (∀ T l, F T None (Return l) → fields_ok schema T l) →
  fields_for_type F field (Return selections) →
  nested_ok schema (unwrap (field_type field))
            (make_selection_set_node selections).
Proof.
  intros HF Hdraw. apply fields_for_type_draw in Hdraw.
  destruct (unwrap (field_type field)) as [| | |name| |name types| |];
    try (subst selections; by constructor).
  - destruct Hdraw as (l & -> & Hl). constructor. by apply HF.
  - destruct Hdraw as (l & members & -> & Hne & Htypes & Hl).
    constructor.
    + intros ->. apply Forall2_nil_inv_r in Hl. done.
    + apply Forall_forall. intros node Hnode.
      apply list_elem_of_lookup in Hnode as [i Hnode].
      destruct (Forall2_lookup_r _ _ _ _ _ Hl Hnode) as (member & Hmember & Hfrag).
      apply inline_fragment_draw in Hfrag as (l' & -> & Hl').
      constructor; [|by apply HF].
      eapply (proj1 (Forall_forall _ _) Htypes).
      by eapply list_elem_of_lookup_2.
Qed.

Lemma _fields_ok depth object_type fields l :
  _fields str_float schema depth object_type fields (Return l) →
  fields_ok schema object_type l.
Proof.
  revert object_type fields l.
  induction depth as [|depth IH]; intros object_type fields l Hdraw; [done|].
  apply _fields_draw in Hdraw
    as (depth' & items & [= <-] & Hne & _ & Heligible & Hnodes).
  constructor.
  - intros ->. by apply Forall2_nil_inv_r in Hnodes.
  - apply Forall_forall. intros node Hnode.
    apply list_elem_of_lookup in Hnode as [i Hnode].
    destruct (Forall2_lookup_r _ _ _ _ _ Hnodes Hnode)
      as ([name field] & Hitem & node_s & Hnode_s & Hdrawn).
    simpl in *.
    destruct (field_nodes_draw _ _ _ _ _ _ _ _ Hnode_s Hdrawn)
      as (arguments & selections & -> & _ & Hselections).
    econstructor.
    + eapply eligible_object_fields.
      eapply (proj1 (Forall_forall _ _) Heligible).
      by eapply list_elem_of_lookup_2.
    + eapply fields_for_type_ok; [|exact Hselections].
      intros T l'. apply IH.
Qed.
End SelectionInvariant.

(** ** Draws of [query] *)

Section QueryFacts.
Variable str_float : spec_float → string.
Variable build_schema : string → result GraphQLSchema.
Variable print_ast : DocumentNode → string.

Lemma query_Return depth schema parsed fields s :
  parse build_schema schema = Return parsed →
  query str_float build_schema print_ast depth schema fields = Return s →
  ∃ root, query_type parsed = Some root
    ∧ s = st.map print_ast
            (st.map make_query (_fields str_float parsed depth root fields)).
Proof.
  intros Hparse. unfold query. rewrite Hparse. simpl.
  destruct (query_type parsed) as [root|]; [|discriminate]. simpl.
  destruct (match fields with Some [] => _ | Some (_ :: _) => _ | None => _ end);
    [|discriminate].
  simpl. intros [= <-]. eauto.
Qed.

Lemma query_draw depth schema parsed fields s document_text :
  parse build_schema schema = Return parsed →
  query str_float build_schema print_ast depth schema fields = Return s →
  s (Return document_text) →
  ∃ root l, query_type parsed = Some root
    ∧ document_text = print_ast (make_query l)
    ∧ _fields str_float parsed depth root fields (Return l).
Proof.
  intros Hparse Hquery Hdraw.
  destruct (query_Return _ _ _ _ _ Hparse Hquery) as (root & Hroot & ->).
  apply map_Return in Hdraw as (document & Hdocument & ->).
  apply map_Return in Hdocument as (l & Hl & ->).
  eauto.
Qed.

Lemma query_Raise_ValueError depth schema parsed fields e :
  parse build_schema schema = Return parsed →
  query str_float build_schema print_ast depth schema fields = Raise e →
  ∃ msg, e = ValueError msg.
Proof.
  intros Hparse. unfold query. rewrite Hparse. simpl.
  destruct (query_type parsed) as [root|]; [|intros [= <-]; eauto]. simpl.
  destruct fields as [[|name names]|]; simpl.
  - intros [= <-]. eauto.
  - destruct (filter _ (name :: names)); simpl; [discriminate|].
    intros [= <-]. eauto.
  - discriminate.
Qed.
End QueryFacts.

(** ** Drawing a given selection *)

Section SelectionDraws.
Variable str_float : spec_float → string.
Variable schema : GraphQLSchema.

Lemma field_nodes_intro depth F name field arguments_s arguments selections :
  list_of_arguments str_float schema depth (args field) = Return arguments_s →
  arguments_s (Return arguments) →
  fields_for_type F field (Return selections) →
  ∃ node_s, field_nodes str_float schema depth F name field = Return node_s
    ∧ node_s (Return (FieldNode (mkNameNode name) arguments
                                (make_selection_set_node selections))).
Proof.
  intros Hargs Harguments Hselections. unfold field_nodes. rewrite Hargs.
  eexists. split; [reflexivity|].
  apply builds2_Return. exists arguments, (make_selection_set_node selections).
  split; [done|]. split; [|done]. apply map_Return. eauto.
Qed.

Lemma lists_of_field_nodes_intro depth F items l :
  Forall2 (λ item node, ∃ node_s,
             field_nodes str_float schema depth F item.1 item.2 = Return node_s
             ∧ node_s (Return node)) items l →
  ∃ s, lists_of_field_nodes str_float schema depth F items = Return s
       ∧ s (Return l).
Proof.
  intros Hnodes.
  assert (∃ nodes,
    Forall2 (λ item node_s,
               field_nodes str_float schema depth F item.1 item.2 = Return node_s)
            items nodes
    ∧ Forall2 (λ node_s node, node_s (Return node)) nodes l)
    as (nodes & Hbuilt & Hdrawn).
  { induction Hnodes as [|item node items l (node_s & Hnode_s & Hnode) _
                          (nodes & Hbuilt & Hdrawn)].
    - exists []. split; constructor.
    - exists (node_s :: nodes). split; by constructor. }
  unfold lists_of_field_nodes, list_of_nodes.
  apply mapM_Return in Hbuilt. rewrite Hbuilt.
  eexists. split; [reflexivity|].
  apply map_Return. exists l. split; [|done]. by apply tuples_Return.
Qed.

Lemma _fields_intro depth object_type fields items l :
  items ≠ [] → NoDup items.*1 →
  Forall (λ item, item ∈ eligible schema object_type fields) items →
  Forall2 (λ item node, ∃ node_s,
             field_nodes str_float schema depth
               (_fields str_float schema depth) item.1 item.2 = Return node_s
             ∧ node_s (Return node)) items l →
  _fields str_float schema (S depth) object_type fields (Return l).
Proof.
  intros Hne Hnodup Heligible Hnodes.
  apply lists_of_field_nodes_intro in Hnodes as (s & Hs & Hl).
  apply flatmap_Return. exists items, s. split; [|done].
  by apply subset_of_fields_Return.
Qed.
End SelectionDraws.

(** [{ getByDate { created } }] is drawn for the schema with the optional
    custom scalar argument, whatever [fields] allows [getByDate]. *)
Lemma optional_date_draw str_float fields :
  ("getByDate", getByDate_field (GraphQLScalarType "Date"))
  ∈ eligible optional_date_schema "Query" fields →
  _fields str_float optional_date_schema 2 "Query" fields (Return [getByDate_node]).
Proof.
  intros Heligible.
  apply (_fields_intro _ _ _ _ _
           [("getByDate", getByDate_field (GraphQLScalarType "Date"))]);
    [done|apply NoDup_singleton|by apply Forall_singleton|].
  constructor; [simpl|constructor].
  eapply field_nodes_intro.
  - reflexivity.
  - apply map_Return. exists []. split; [|done].
    apply tuples_Return. constructor.
  - change (st.map Some (_fields str_float optional_date_schema 1 "Object" None)
                   (Return (Some [created_node]))).
    apply map_Return. exists [created_node]. split; [|done].
    apply (_fields_intro _ _ _ _ _ [("created", created_field)]);
      [done|apply NoDup_singleton| |].
    + apply Forall_singleton. vm_compute. apply list_elem_of_here.
    + constructor; [simpl|constructor].
      eapply field_nodes_intro.
      * reflexivity.
      * apply map_Return. exists []. split; [|done].
        apply tuples_Return. constructor.
      * by apply just_Return.
Qed.

(** ** C6: one operation, no empty selection set *)

(** C6: every document that is drawn is printed from a document node with
    exactly one definition, a query operation, whose selection set holds a
    non-empty list of fields of the root type; below it, every field of an
    object type carries a non-empty list of fields of that type, every field
    of a union type a non-empty list of inline fragments, each on a member of
    the union and with a non-empty list of fields of the member, and every
    other field no selections.  The candidates that [subset_of_fields] samples
    from are the given fields sorted by name, and what it draws is never
    empty. *)
Theorem documents_never_empty (str_float : spec_float → string)
    (build_schema : string → result GraphQLSchema)
    (print_ast : DocumentNode → string)
    (depth : nat) (schema : string + GraphQLSchema) (parsed : GraphQLSchema)
    (fields : option (list string))
    (s : SearchStrategy string) (document_text : string) :
  parse build_schema schema = Return parsed →
  query str_float build_schema print_ast depth schema fields = Return s →
  s (Return document_text) →
  (∃ root l,
     query_type parsed = Some root
     ∧ document_text
       = print_ast
           (mkDocumentNode "document"
              [mkOperationDefinitionNode "operation_definition" QUERY
                 (mkSelectionSetNode "selection_set" (Some l))])
     ∧ l ≠ []
     ∧ fields_ok parsed root l)
  ∧ (∀ (F : Type) (all_fields : list (string * F)),
       subset_of_fields all_fields
       = st.lists (st.sampled_from (sorted all_fields)) 1 (Some fst)
       ∧ StronglySorted (λ x y, String.le x.1 y.1) (sorted all_fields)
       ∧ sorted all_fields ≡ₚ all_fields
       ∧ ∀ items, subset_of_fields all_fields (Return items) → items ≠ []).
Proof.
  intros Hparse Hquery Hdraw. split.
  - destruct (query_draw _ _ _ _ _ _ _ _ _ Hparse Hquery Hdraw)
      as (root & l & Hroot & -> & Hl).
    apply _fields_ok in Hl. exists root, l.
    split; [done|]. split; [done|]. split; [|done].
    by destruct Hl.
  - intros F all_fields. split; [done|].
    split; [apply sorted_by_name|]. split; [apply sorted_Permutation|].
    by intros items (Hne & _)%subset_of_fields_Return.
Qed.

Lemma documents_never_empty_witness :
  fields_ok optional_date_schema "Query" [getByDate_node].
Proof.
  destruct (documents_never_empty (λ _, "0.0")
              (λ _, Raise (GraphQLError "Syntax Error"))
              (λ _, "{ getByDate { created } }")
              2 (inr optional_date_schema) optional_date_schema None
              (st.map (λ _, "{ getByDate { created } }")
                 (st.map make_query
                    (_fields (λ _, "0.0") optional_date_schema 2 "Query" None)))
              "{ getByDate { created } }" eq_refl eq_refl)
    as [_ Hsorted].
  - apply map_Return. exists (make_query [getByDate_node]). split; [|done].
    apply map_Return. exists [getByDate_node]. split; [|done].
    apply optional_date_draw. vm_compute. apply list_elem_of_here.
  - apply _fields_ok with (λ _, "0.0") 2 None.
    apply optional_date_draw. vm_compute. apply list_elem_of_here.
Defined.

(** ** C5: [fields] restricts the root selection only *)

(** C5: when [fields] is given (and [query] returns, so that it is not empty),
    every field at the root of a drawn document is a field of the root type
    whose name is in [fields]; what is selected below such a field is drawn
    from [_fields] of the field's type, or of the chosen member of its union
    type, called with no [fields], and [_fields] with no [fields] draws from
    all the fields of the type. *)
Theorem fields_restrict_the_root_only (str_float : spec_float → string)
    (build_schema : string → result GraphQLSchema)
    (print_ast : DocumentNode → string)
    (depth : nat) (schema : string + GraphQLSchema) (parsed : GraphQLSchema)
    (names : list string)
    (s : SearchStrategy string) (document_text : string) :
  parse build_schema schema = Return parsed →
  query str_float build_schema print_ast depth schema (Some names) = Return s →
  s (Return document_text) →
  names ≠ []
  ∧ ∃ root depth' l,
      depth = S depth'
      ∧ query_type parsed = Some root
      ∧ document_text = print_ast (make_query l)
      ∧ Forall (λ node, ∃ name field arguments selections,
          node = FieldNode (mkNameNode name) arguments
                           (make_selection_set_node selections)
          ∧ name ∈ names
          ∧ (name, field) ∈ object_fields parsed root
          ∧ match unwrap (field_type field) with
            | GraphQLObjectType T =>
                ∃ l', selections = Some l'
                  ∧ _fields str_float parsed depth' T None (Return l')
            | GraphQLUnionType _ types =>
                ∃ l' members, selections = Some l'
                  ∧ Forall (λ member, member ∈ types) members
                  ∧ Forall2 (λ member fragment, ∃ l'',
                      fragment = InlineFragmentNode
                                   (mkNamedTypeNode (mkNameNode member))
                                   (make_selection_set_node (Some l''))
                      ∧ _fields str_float parsed depth' member None (Return l''))
                      members l'
            | _ => selections = None
            end) l
      ∧ ∀ T d, _fields str_float parsed (S d) T None
               = st.flatmap (subset_of_fields (object_fields parsed T))
                   (lists_of_field_nodes str_float parsed d
                      (_fields str_float parsed d)).
Proof.
  intros Hparse Hquery Hdraw.
  assert (names ≠ []) as Hnames.
  { intros ->. unfold query in Hquery. rewrite Hparse in Hquery. simpl in Hquery.
    by destruct (query_type parsed). }
  split; [done|].
  destruct (query_draw _ _ _ _ _ _ _ _ _ Hparse Hquery Hdraw)
    as (root & l & Hroot & -> & Hl).
  apply _fields_draw in Hl as (depth' & items & -> & _ & _ & Heligible & Hnodes).
  exists root, depth', l. repeat (split; [done|]). split; [|done].
  apply Forall_forall. intros node Hnode.
  apply list_elem_of_lookup in Hnode as [i Hnode].
  destruct (Forall2_lookup_r _ _ _ _ _ Hnodes Hnode)
    as ([name field] & Hitem & node_s & Hnode_s & Hdrawn).
  simpl in *.
  destruct (field_nodes_draw _ _ _ _ _ _ _ _ Hnode_s Hdrawn)
    as (arguments & selections & -> & _ & Hselections).
  assert ((name, field) ∈ eligible parsed root (Some names)) as Hin.
  { eapply (proj1 (Forall_forall _ _) Heligible).
    by eapply list_elem_of_lookup_2. }
  exists name, field, arguments, selections.
  split; [done|]. split.
  { destruct names as [|name' names]; [done|].
    by apply eligible_restricted in Hin. }
  split; [by eapply eligible_object_fields|].
  apply fields_for_type_draw in Hselections.
  destruct (unwrap (field_type field)) as [| | |T| |T types| |]; try done.
  destruct Hselections as (l' & members & -> & _ & Htypes & Hl').
  exists l', members. split; [done|]. split; [done|].
  eapply Forall2_impl; [exact Hl'|]. simpl.
  intros member fragment. apply inline_fragment_draw.
Qed.

Lemma fields_restrict_the_root_only_witness :
  ∃ root depth' l,
    2 = S depth' ∧ query_type optional_date_schema = Some root
    ∧ "{ getByDate { created } }" = (λ _, "{ getByDate { created } }") (make_query l)
    ∧ Forall (λ node, ∃ name field arguments selections,
        node = FieldNode (mkNameNode name) arguments
                         (make_selection_set_node selections)
        ∧ name ∈ ["getByDate"]
        ∧ (name, field) ∈ object_fields optional_date_schema root
        ∧ match unwrap (field_type field) with
          | GraphQLObjectType T =>
              ∃ l', selections = Some l'
                ∧ _fields (λ _, "0.0") optional_date_schema depth' T None (Return l')
          | GraphQLUnionType _ types =>
              ∃ l' members, selections = Some l'
                ∧ Forall (λ member, member ∈ types) members
                ∧ Forall2 (λ member fragment, ∃ l'',
                    fragment = InlineFragmentNode
                                 (mkNamedTypeNode (mkNameNode member))
                                 (make_selection_set_node (Some l''))
                    ∧ _fields (λ _, "0.0") optional_date_schema depth' member None
                        (Return l''))
                    members l'
          | _ => selections = None
          end) l
    ∧ ∀ T d, _fields (λ _, "0.0") optional_date_schema (S d) T None
             = st.flatmap (subset_of_fields (object_fields optional_date_schema T))
                 (lists_of_field_nodes (λ _, "0.0") optional_date_schema d
                    (_fields (λ _, "0.0") optional_date_schema d)).
Proof.
  apply (fields_restrict_the_root_only (λ _, "0.0")
           (λ _, Raise (GraphQLError "Syntax Error"))
           (λ _, "{ getByDate { created } }")
           2 (inr optional_date_schema) optional_date_schema ["getByDate"]
           (st.map (λ _, "{ getByDate { created } }")
              (st.map make_query
                 (_fields (λ _, "0.0") optional_date_schema 2 "Query"
                    (Some ["getByDate"]))))
           "{ getByDate { created } }" eq_refl).
  - reflexivity.
  - apply map_Return. exists (make_query [getByDate_node]). split; [|done].
    apply map_Return. exists [getByDate_node]. split; [|done].
    apply optional_date_draw. vm_compute. apply list_elem_of_here.
Defined.

(** ** C1: when the unsupported scalar error is raised *)

Lemma required_date_requires_custom_scalar :
  requires_custom_scalar (getByDate_field (GraphQLNonNull (GraphQLScalarType "Date"))).
Proof.
  exists "created", (mkGraphQLArgument (GraphQLNonNull (GraphQLScalarType "Date"))).
  split; [apply list_elem_of_here|]. split; reflexivity.
Qed.

(** Against C1 as stated: for [getByDate(created: Date!): Object], [query]
    raises nothing and returns a strategy, and the error about the custom
    scalar argument is raised by a draw from that strategy. *)
Lemma unsupported_scalar_not_eager :
  (∃ name field,
     (name, field) ∈ object_fields required_date_schema "Query"
     ∧ requires_custom_scalar field)
  ∧ ∃ s, query (λ _, "0.0") (λ _, Raise (GraphQLError "Syntax Error")) (λ _, "")
               1 (inr required_date_schema) None = Return s
         ∧ s (Raise not_supported_as_argument).
Proof.
  split.
  - exists "getByDate", (getByDate_field (GraphQLNonNull (GraphQLScalarType "Date"))).
    split; [|apply required_date_requires_custom_scalar].
    vm_compute. apply list_elem_of_here.
  - eexists. split; [reflexivity|].
    apply map_Raise, map_Raise.
    apply (_fields_required _ _ 0 "Query" None "getByDate"
             (getByDate_field (GraphQLNonNull (GraphQLScalarType "Date")))).
    + vm_compute. apply list_elem_of_here.
    + apply required_date_requires_custom_scalar.
Qed.

(** C1, amended: let the root type declare a field that [fields] allows and
    that has a non-null argument whose leaf type is a custom scalar.  Then
    [query] itself raises nothing but configuration errors (and nothing at
    all when no [fields] are given); the strategy it returns raises the error
    about the custom scalar argument when it is drawn from, and no document
    drawn from it has that field at its root. *)
Theorem unsupported_scalar_raised_by_draw (str_float : spec_float → string)
    (build_schema : string → result GraphQLSchema)
    (print_ast : DocumentNode → string)
    (depth : nat) (schema : string + GraphQLSchema) (parsed : GraphQLSchema)
    (fields : option (list string))
    (root name : string) (field : GraphQLField) :
  parse build_schema schema = Return parsed →
  query_type parsed = Some root →
  NoDup (object_fields parsed root).*1 →
  (name, field) ∈ eligible parsed root fields →
  requires_custom_scalar field →
  (∀ d e, query str_float build_schema print_ast d schema fields = Raise e →
          ∃ msg, e = ValueError msg)
  ∧ (fields = None →
     ∀ d, is_Return (query str_float build_schema print_ast d schema fields))
  ∧ ∀ s, query str_float build_schema print_ast (S depth) schema fields = Return s →
         s (Raise not_supported_as_argument)
         ∧ ∀ document_text, s (Return document_text) →
             ∃ l, document_text = print_ast (make_query l)
                  ∧ Some name ∉ field_name <$> l.
Proof.
  intros Hparse Hroot Hnodup Heligible Hrequired.
  split; [|split].
  - intros d e He. eapply query_Raise_ValueError; [exact Hparse|exact He].
  - intros -> d. unfold query, is_Return. rewrite Hparse. simpl.
    rewrite Hroot. simpl. eauto.
  - intros s Hquery.
    destruct (query_Return _ _ _ _ _ _ _ _ Hparse Hquery) as (root' & Hroot' & ->).
    assert (root' = root) as -> by congruence.
    split.
    + apply map_Raise, map_Raise. by eapply _fields_required.
    + intros document_text (document & (l & Hl & ->)%map_Return & ->)%map_Return.
      exists l. split; [done|].
      eapply _fields_never_required; try done.
      by eapply eligible_object_fields.
Qed.

Lemma unsupported_scalar_raised_by_draw_witness :
  ∃ s, query (λ _, "0.0") (λ _, Raise (GraphQLError "Syntax Error")) (λ _, "")
             1 (inr required_date_schema) None = Return s
       ∧ s (Raise not_supported_as_argument).
Proof.
  eexists. split; [reflexivity|].
  apply (unsupported_scalar_raised_by_draw (λ _, "0.0")
           (λ _, Raise (GraphQLError "Syntax Error")) (λ _, "")
           0 (inr required_date_schema) required_date_schema None
           "Query" "getByDate"
           (getByDate_field (GraphQLNonNull (GraphQLScalarType "Date")))
           eq_refl eq_refl).
  - vm_compute. apply NoDup_singleton.
  - vm_compute. apply list_elem_of_here.
  - exists "created", (mkGraphQLArgument (GraphQLNonNull (GraphQLScalarType "Date"))).
    split; [apply list_elem_of_here|]. split; reflexivity.
  - reflexivity.
Defined.

(** ** The argument nodes of a draw *)

Section ArgumentDraws.
Variable str_float : spec_float → string.
Variable schema : GraphQLSchema.
Variable depth : nat.

Local Abbreviation has_strategy' := (has_strategy str_float schema depth).
Local Abbreviation argument_nodes_drawn' := (argument_nodes_drawn str_float schema depth).

(** [list_of_arguments] returns unless an argument is non-null and has no
    strategy. *)
Lemma list_of_arguments_is_Return kwargs :
  is_Return (list_of_arguments str_float schema depth kwargs)
  ↔ Forall (λ item, is_non_null (argument_type item.2) = true →
                    has_strategy' item = true) kwargs.
Proof.
  unfold list_of_arguments. split.
  - intros [s Hs].
    destruct (list_of_arguments_args str_float schema depth kwargs)
      as [args|e] eqn:E; [|discriminate].
    apply list_of_arguments_args_Return in E as [_ Hnullable].
    eapply Forall_impl; [exact Hnullable|]. simpl. intros item Hitem Hnn.
    destruct (has_strategy' item); [done|]. rewrite Hitem in Hnn; done.
  - intros Hall.
    destruct (list_of_arguments_args_is_Return str_float schema depth kwargs)
      as [args Hargs].
    + eapply Forall_impl; [exact Hall|]. simpl. intros item Hitem Hno.
      destruct (is_non_null (argument_type item.2)); [|done].
      rewrite Hitem in Hno; done.
    + rewrite Hargs. by eexists.
Qed.

(** The draws of the strategy of [list_of_arguments]: one node for each
    argument that has a strategy. *)
Lemma list_of_arguments_draws kwargs s l :
  list_of_arguments str_float schema depth kwargs = Return s →
  s (Return l)
  ↔ argument_nodes_drawn' (filter (λ item, has_strategy' item = true) kwargs) l.
Proof.
  unfold list_of_arguments, argument_nodes_drawn.
  destruct (list_of_arguments_args str_float schema depth kwargs)
    as [args|e] eqn:E; [|discriminate].
  intros [= <-]. apply list_of_arguments_args_Return in E as [Hargs _].
  rewrite map_Return. unfold list_.
  split.
  - intros (l' & Hl' & ->). apply tuples_Return in Hl'.
    revert l' Hl'.
    induction Hargs as [|item arg items args (v & Hv & ->) _ IH]; intros l' Hl'.
    + apply Forall2_nil_inv_l in Hl' as ->. constructor.
    + apply Forall2_cons_inv_l in Hl' as (node & l'' & Hnode & Hl'' & ->).
      apply map_Return in Hnode as (value & Hvalue & ->).
      constructor; [|by apply IH]. by exists v, value.
  - intros Hl. exists l. split; [|done]. apply tuples_Return.
    revert l Hl.
    induction Hargs as [|item arg items args (v & Hv & ->) _ IH]; intros l Hl.
    + apply Forall2_nil_inv_l in Hl as ->. constructor.
    + apply Forall2_cons_inv_l in Hl
        as (node & l' & (v' & value & Hv' & Hvalue & ->) & Hl' & ->).
      rewrite Hv in Hv'. injection Hv' as <-.
      constructor; [|by apply IH]. apply map_Return. by exists value.
Qed.

Lemma argument_nodes_drawn_names kwargs l :
  argument_nodes_drawn' kwargs l → argument_names l = kwargs.*1.
Proof.
  induction 1 as [|item node kwargs l (v & value & _ & _ & ->) _ IH]; [done|].
  unfold argument_names in *. rewrite !fmap_cons. simpl. by rewrite IH.
Qed.

Lemma argument_nodes_drawn_lookup kwargs l i item :
  argument_nodes_drawn' kwargs l → kwargs !! i = Some item →
  ∃ v value, argument_values str_float schema depth item.2 = Return v
    ∧ v (Return value)
    ∧ l !! i = Some (mkArgumentNode (mkNameNode item.1) value).
Proof.
  intros Hl Hi.
  destruct (Forall2_lookup_l _ _ _ _ _ Hl Hi)
    as (node & Hnode & v & value & Hv & Hvalue & ->).
  by exists v, value.
Qed.

(** Another value of its strategy can be put in the place of any argument. *)
Lemma argument_nodes_drawn_insert kwargs l i item v value :
  argument_nodes_drawn' kwargs l → kwargs !! i = Some item →
  argument_values str_float schema depth item.2 = Return v →
  v (Return value) →
  argument_nodes_drawn' kwargs
    (<[i := mkArgumentNode (mkNameNode item.1) value]> l).
Proof.
  intros Hl Hi Hv Hvalue. unfold argument_nodes_drawn.
  rewrite <- (list_insert_id kwargs i item Hi).
  apply Forall2_insert; [done|]. by exists v, value.
Qed.

(** The draws of the strategy of [field_nodes]. *)
Lemma field_nodes_draws F name field s node :
  field_nodes str_float schema depth F name field = Return s →
  s (Return node)
  ↔ ∃ arguments selections,
      node = FieldNode (mkNameNode name) arguments
                       (make_selection_set_node selections)
      ∧ argument_nodes_drawn'
          (filter (λ item, has_strategy' item = true) (args field)) arguments
      ∧ fields_for_type F field (Return selections).
Proof.
  unfold field_nodes.
  destruct (list_of_arguments str_float schema depth (args field))
    as [arguments_s|e] eqn:E; [|discriminate].
  intros [= <-]. rewrite builds2_Return. split.
  - intros (arguments & ss & Harguments & Hss & ->).
    apply map_Return in Hss as (selections & Hselections & ->).
    exists arguments, selections. split; [done|]. split; [|done].
    by apply (list_of_arguments_draws _ _ _ E).
  - intros (arguments & selections & -> & Harguments & Hselections).
    exists arguments, (make_selection_set_node selections).
    split; [by apply (list_of_arguments_draws _ _ _ E)|].
    split; [|done]. apply map_Return. eauto.
Qed.

Lemma field_nodes_is_Return F name field :
  is_Return (field_nodes str_float schema depth F name field)
  ↔ is_Return (list_of_arguments str_float schema depth (args field)).
Proof.
  unfold field_nodes, is_Return.
  destruct (list_of_arguments str_float schema depth (args field)); simpl.
  - split; eauto.
  - split; by intros [? [=]].
Qed.
End ArgumentDraws.

(** ** C4: arguments whose leaf type is a custom scalar *)

(** C4: let a declared argument have a custom scalar as its leaf type.  If the
    argument is non-null, [list_of_arguments] raises, and so do [field_nodes]
    for the field, [lists_of_field_nodes] for every choice of fields that
    holds the field, and every draw of a selection set that chooses the
    field: no field node and no document comes out of such a draw.  If the
    argument is nullable, it is passed over without an error:
    [list_of_arguments] gives what it gives without the argument, and it
    returns a strategy unless another argument is non-null and has no
    strategy, and so does [field_nodes]; the draws of that strategy are
    exactly the field nodes with one argument node for each argument that has
    a strategy, and the name of the argument is on no argument node of them,
    with or without a Null value. *)
Theorem custom_scalar_argument (str_float : spec_float → string)
    (schema : GraphQLSchema) (depth : nat)
    (kwargs : list (string * GraphQLArgument))
    (name : string) (argument : GraphQLArgument) :
  (name, argument) ∈ kwargs →
  NoDup kwargs.*1 →
  custom_scalar_leaf (argument_type argument) = true →
  (is_non_null (argument_type argument) = true →
     list_of_arguments str_float schema depth kwargs
     = Raise not_supported_as_argument
     ∧ ∀ F field_name field, args field = kwargs →
         field_nodes str_float schema depth F field_name field
         = Raise not_supported_as_argument
         ∧ (∀ items, (field_name, field) ∈ items →
              lists_of_field_nodes str_float schema depth F items
              = Raise not_supported_as_argument)
         ∧ (∀ object_type fields,
              (field_name, field) ∈ eligible schema object_type fields →
              _fields str_float schema (S depth) object_type fields
                (Raise not_supported_as_argument)))
  ∧ (is_non_null (argument_type argument) = false →
     (∃ before after,
        kwargs = before ++ (name, argument) :: after
        ∧ list_of_arguments str_float schema depth kwargs
          = list_of_arguments str_float schema depth (before ++ after))
     ∧ (is_Return (list_of_arguments str_float schema depth kwargs)
        ↔ Forall (λ item, is_non_null (argument_type item.2) = true →
                          has_strategy str_float schema depth item = true)
                 kwargs)
     ∧ (∀ s l, list_of_arguments str_float schema depth kwargs = Return s →
               s (Return l) → name ∉ argument_names l)
     ∧ ∀ F field_name field, args field = kwargs →
         (is_Return (field_nodes str_float schema depth F field_name field)
          ↔ Forall (λ item, is_non_null (argument_type item.2) = true →
                            has_strategy str_float schema depth item = true)
                   kwargs)
         ∧ ∀ s, field_nodes str_float schema depth F field_name field
                = Return s →
             ∀ node, s (Return node)
               ↔ ∃ arguments selections,
                   node = FieldNode (mkNameNode field_name) arguments
                                    (make_selection_set_node selections)
                   ∧ (name ∉ argument_names arguments)
                   ∧ argument_nodes_drawn str_float schema depth
                       (filter (λ item, has_strategy str_float schema depth item
                                        = true) kwargs)
                       arguments
                   ∧ fields_for_type F field (Return selections)).
Proof.
  intros Hin Hnodup Hleaf.
  assert (has_strategy str_float schema depth (name, argument) = false) as Hno
    by by apply has_strategy_custom_scalar.
  assert (name ∉ (filter (λ item, has_strategy str_float schema depth item = true)
                         kwargs).*1) as Hname.
  { intros ([name' argument'] & Hname' & [Hyes Hin']%list_elem_of_filter)%list_elem_of_fmap.
    simpl in Hname'. subst name'.
    rewrite (NoDup_fst_inj _ _ _ _ Hnodup Hin' Hin) in Hyes. congruence. }
  split.
  - intros Hrequired.
    assert (list_of_arguments str_float schema depth kwargs
            = Raise not_supported_as_argument) as Hraise.
    { unfold list_of_arguments.
      by rewrite (list_of_arguments_args_required _ _ _ _ name argument). }
    split; [done|].
    intros F field_name field Hargs.
    assert (requires_custom_scalar field) as Hfield.
    { exists name, argument. by rewrite Hargs. }
    split; [by apply field_nodes_required|].
    split.
    + intros items Hitems. by eapply lists_of_field_nodes_required.
    + intros object_type fields Heligible. by eapply _fields_required.
  - intros Hnullable. split; [|split; [|split]].
    + destruct (list_elem_of_split _ _ Hin) as (before & after & ->).
      exists before, after. split; [done|].
      unfold list_of_arguments. by rewrite list_of_arguments_args_omit.
    + apply list_of_arguments_is_Return.
    + intros s l Hs Hl. by rewrite (list_of_arguments_draw _ _ _ _ _ _ Hs Hl).
    + intros F field_name field Hargs. split.
      * rewrite field_nodes_is_Return, Hargs.
        apply list_of_arguments_is_Return.
      * intros s Hs node.
        rewrite (field_nodes_draws _ _ _ _ _ _ _ _ Hs), Hargs.
        split.
        -- intros (arguments & selections & -> & Harguments & Hselections).
           exists arguments, selections. split; [done|].
           split; [|done].
           by rewrite (argument_nodes_drawn_names _ _ _ _ _ Harguments).
        -- intros (arguments & selections & -> & _ & Harguments & Hselections).
           by exists arguments, selections.
Qed.

(** Among the arguments [first: Int, created: [Date], after: ID] the custom
    scalar one is passed over: [getByDate(first: null, after: null)] with the
    selection [created] is a field node that is drawn. *)
Lemma custom_scalar_argument_witness :
  ∃ s, field_nodes (λ _, "0.0") optional_date_schema 1
         (_fields (λ _, "0.0") optional_date_schema 1)
         "getByDate" getByDate_paged_field = Return s
    ∧ s (Return (FieldNode (mkNameNode "getByDate")
                   [mkArgumentNode (mkNameNode "first") NullValueNode;
                    mkArgumentNode (mkNameNode "after") NullValueNode]
                   (make_selection_set_node (Some [created_node])))).
Proof.
  destruct (custom_scalar_argument (λ _, "0.0") optional_date_schema 1
              (args getByDate_paged_field)
              "created" (mkGraphQLArgument (GraphQLList (GraphQLScalarType "Date"))))
    as [_ Hnullable].
  - set_solver.
  - simpl. repeat constructor; set_solver.
  - reflexivity.
  - destruct (Hnullable eq_refl) as (_ & _ & _ & Hfield).
    destruct (Hfield (_fields (λ _, "0.0") optional_date_schema 1)
                "getByDate" getByDate_paged_field eq_refl) as [Hreturn Hdraws].
    destruct (proj2 Hreturn) as [s Hs].
    { repeat constructor; discriminate. }
    exists s. split; [done|]. apply (Hdraws s Hs).
    exists [mkArgumentNode (mkNameNode "first") NullValueNode;
            mkArgumentNode (mkNameNode "after") NullValueNode],
           (Some [created_node]).
    split; [done|]. split; [set_solver|]. split.
    + change (argument_nodes_drawn (λ _, "0.0") optional_date_schema 1
                [("first", mkGraphQLArgument (GraphQLScalarType "Int"));
                 ("after", mkGraphQLArgument (GraphQLScalarType "ID"))]
                [mkArgumentNode (mkNameNode "first") NullValueNode;
                 mkArgumentNode (mkNameNode "after") NullValueNode]).
      repeat constructor.
      * eexists _, NullValueNode. split; [reflexivity|]. split; [|done].
        by right.
      * eexists _, NullValueNode. split; [reflexivity|]. split; [|done].
        left. by right.
    + change (st.map Some (_fields (λ _, "0.0") optional_date_schema 1 "Object" None)
                     (Return (Some [created_node]))).
      apply map_Return. exists [created_node]. split; [|done].
      apply (_fields_intro _ _ _ _ _ [("created", created_field)]);
        [done|apply NoDup_singleton| |].
      * apply Forall_singleton. vm_compute. apply list_elem_of_here.
      * constructor; [simpl|constructor].
        eapply field_nodes_intro.
        -- reflexivity.
        -- apply map_Return. exists []. split; [|done].
           apply tuples_Return. constructor.
        -- by apply just_Return.
Defined.

(** ** Arguments with and without a strategy *)

Section ArgumentNodes.
Variable str_float : spec_float → string.
Variable schema : GraphQLSchema.
Variable depth : nat.

Lemma filter_has_strategy kwargs :
  Forall (λ item, input_type (argument_type item.2) = true) kwargs →
  filter (λ item, has_strategy str_float schema depth item = true) kwargs
  = filter (λ item, custom_scalar_leaf (argument_type item.2) = false) kwargs.
Proof.
  induction 1 as [|item kwargs Hinput _ IH]; [done|].
  destruct (custom_scalar_leaf (argument_type item.2)) eqn:Hleaf.
  - rewrite !filter_cons_False; [done|by rewrite Hleaf|].
    by rewrite has_strategy_custom_scalar.
  - rewrite !filter_cons_True; [by rewrite IH|done|].
    by apply has_strategy_supported.
Qed.

Lemma filter_all {A} (P : A → Prop) `{∀ x, Decision (P x)} (l : list A) :
  Forall P l → filter P l = l.
Proof.
  induction 1 as [|x l Hx _ IH]; [done|].
  by rewrite filter_cons_True, IH.
Qed.

(** A nullable scalar or enum may be drawn as Null. *)
Lemma value_nodes_null type_ v :
  (∃ name, type_ = GraphQLScalarType name)
  ∨ (∃ name values, type_ = GraphQLEnumType name values) →
  value_nodes str_float schema depth type_ = Return v →
  v (Return NullValueNode).
Proof.
  intros [[name ->] | (name & values & ->)];
    rewrite value_nodes_check_nullable; simpl.
  - unfold primitives.scalar. repeat case_decide; intros [= <-].
    + by right.
    + by right.
    + by right.
    + left. by right.
    + by right.
  - intros [= <-]. by right.
Qed.
End ArgumentNodes.

(** ** C3: Null for nullable values *)

Section NullFacts.
Variable str_float : spec_float → string.
Variable schema : GraphQLSchema.

(** A list value is never Null; when nullable its [values] may be [None]. *)
Lemma lists_never_null value_nodes of_type nullable s :
  lists value_nodes of_type nullable = Return s →
  ¬ s (Return NullValueNode)
  ∧ (nullable = true → s (Return (ListValueNode None))).
Proof.
  unfold lists. destruct (value_nodes of_type) as [elements|e]; [|discriminate].
  simpl. intros [= <-]. split.
  - by intros (values & _ & [=])%map_Return.
  - intros ->. apply map_Return. exists None. split; [|done]. by right.
Qed.

(** An input object value is never Null; when nullable its [fields] may be
    [None]. *)
Lemma objects_never_null value_nodes fields nullable :
  ¬ objects value_nodes fields nullable (Return NullValueNode)
  ∧ (nullable = true →
     objects value_nodes fields nullable (Return (ObjectValueNode None))).
Proof.
  unfold objects. split.
  - by intros (values & _ & [=])%map_Return.
  - intros ->. apply map_Return. exists None. split; [|done]. by right.
Qed.

Lemma scalar_non_null_never_null name s :
  primitives.scalar str_float name false = Return s →
  ¬ s (Return NullValueNode).
Proof.
  unfold primitives.scalar. repeat case_decide; intros [= <-]; simpl.
  - by intros (v & _ & [=])%map_Return.
  - by intros (v & _ & [=])%map_Return.
  - by intros (v & _ & [=])%map_Return.
  - by intros [(v & _ & [=])%map_Return | (v & _ & [=])%map_Return].
  - by intros (v & _ & [=])%map_Return.
Qed.

(** With [nullable] false, no kind of value is drawn as Null. *)
Lemma non_null_never_null depth of_type s :
  value_nodes str_float schema depth (GraphQLNonNull of_type) = Return s →
  ¬ s (Return NullValueNode).
Proof.
  rewrite value_nodes_check_nullable. simpl.
  destruct of_type; simpl; try discriminate.
  - apply scalar_non_null_never_null.
  - intros [= <-]. by intros (v & _ & [=])%map_Return.
  - intros [= <-]. apply objects_never_null.
  - apply lists_never_null.
Qed.
End NullFacts.

(** C3, on the code: for a nullable list type and for a nullable input object
    type, [value_nodes] returns a strategy from which Null is never drawn;
    what the [nullable] flag adds is a list node whose [values] is [None] and
    an object node whose [fields] is [None]. *)
Theorem nullable_list_and_object_never_null (str_float : spec_float → string)
    (schema : GraphQLSchema) (depth : nat) :
  (∃ s, value_nodes str_float schema depth (GraphQLList (GraphQLScalarType "Int"))
        = Return s
        ∧ ¬ s (Return NullValueNode)
        ∧ s (Return (ListValueNode None)))
  ∧ (∃ s, value_nodes str_float schema depth (GraphQLInputObjectType "QueryInput")
          = Return s
          ∧ ¬ s (Return NullValueNode)
          ∧ s (Return (ObjectValueNode None))).
Proof.
  split.
  - rewrite value_nodes_check_nullable. simpl.
    destruct (lists (value_nodes str_float schema depth)
                (GraphQLScalarType "Int") true) as [s|e] eqn:E.
    + exists s. split; [done|].
      destruct (lists_never_null _ _ _ _ E) as [Hnull Hnone]. split; [done|].
      by apply Hnone.
    + apply lists_Raise in E. rewrite value_nodes_check_nullable in E.
      discriminate.
  - rewrite value_nodes_check_nullable. simpl.
    eexists. split; [reflexivity|].
    destruct (objects_never_null
                (value_nodes_deeper str_float schema depth)
                (input_object_fields schema "QueryInput") true) as [Hnull Hnone].
    split; [done|]. by apply Hnone.
Qed.

(** ** C10: the arguments of a field node *)

Section NullDraws.
Variable str_float : spec_float → string.
Variable schema : GraphQLSchema.
Variable depth : nat.

(** What stands for no value is drawn at every nullable type. *)
Lemma value_nodes_null_draw type_ v absent :
  value_nodes str_float schema depth type_ = Return v →
  null_draw type_ = Some absent → v (Return absent).
Proof.
  destruct type_ as [name|name values|name|name|name|name types
                     |of_type|of_type];
    simpl; try discriminate.
  - intros Hv [= <-]. eapply value_nodes_null; [left; eauto|done].
  - intros Hv [= <-]. eapply value_nodes_null; [right; eauto|done].
  - rewrite value_nodes_check_nullable. simpl. intros [= <-] [= <-].
    by apply objects_never_null.
  - rewrite value_nodes_check_nullable. simpl. intros Hv [= <-].
    by apply (lists_never_null _ _ _ _ Hv).
Qed.

(** Null is drawn at the nullable scalars and enums and at no other type. *)
Lemma value_nodes_Null type_ v :
  value_nodes str_float schema depth type_ = Return v →
  v (Return NullValueNode) → null_draw type_ = Some NullValueNode.
Proof.
  destruct type_ as [name|name values|name|name|name|name types
                     |of_type|of_type];
    try done; intros Hv Hnull; exfalso.
  - rewrite value_nodes_check_nullable in Hv. simpl in Hv.
    injection Hv as <-. by apply objects_never_null in Hnull.
  - by rewrite value_nodes_check_nullable in Hv.
  - by rewrite value_nodes_check_nullable in Hv.
  - by rewrite value_nodes_check_nullable in Hv.
  - rewrite value_nodes_check_nullable in Hv. simpl in Hv.
    by apply lists_never_null in Hv as [Hv _].
  - by apply non_null_never_null in Hv.
Qed.
End NullDraws.

(** C10: let the declared arguments of a field be input types.  When none of
    them has a custom scalar as its leaf type, [field_nodes] returns a
    strategy.  The field nodes drawn from the strategy of [field_nodes] are
    exactly those that carry one argument node for each declared argument
    whose leaf type is not a custom scalar, in the order of the declarations,
    with a value of the argument's strategy; an argument that is left out has
    a custom scalar as its leaf type and is nullable.  In a drawn field node
    the value of an argument is Null only if the argument is a nullable scalar
    or enum, and in the place of any nullable argument the node may carry what
    stands for no value: Null for a scalar or an enum, but a list node whose
    [values] is [None] for a list and an object node whose [fields] is [None]
    for an input object, which are never drawn as Null. *)
Theorem supported_arguments_all_present (str_float : spec_float → string)
    (schema : GraphQLSchema) (depth : nat)
    (F : string → option (list string) → SearchStrategy (list SelectionNode))
    (name : string) (field : GraphQLField) :
  Forall (λ item, input_type (argument_type item.2) = true) (args field) →
  (Forall (λ item, custom_scalar_leaf (argument_type item.2) = false)
          (args field) →
     supported_args field = args field
     ∧ is_Return (field_nodes str_float schema depth F name field))
  ∧ ∀ s, field_nodes str_float schema depth F name field = Return s →
      Forall (λ item, custom_scalar_leaf (argument_type item.2) = true →
                      is_non_null (argument_type item.2) = false)
             (args field)
      ∧ (∀ node, s (Return node)
           ↔ ∃ arguments selections,
               node = FieldNode (mkNameNode name) arguments
                                (make_selection_set_node selections)
               ∧ argument_nodes_drawn str_float schema depth
                   (supported_args field) arguments
               ∧ fields_for_type F field (Return selections))
      ∧ ∀ arguments selection_set,
          s (Return (FieldNode (mkNameNode name) arguments selection_set)) →
          argument_names arguments = (supported_args field).*1
          ∧ ∀ i argument_name argument,
              supported_args field !! i = Some (argument_name, argument) →
              (∃ value,
                 arguments !! i
                 = Some (mkArgumentNode (mkNameNode argument_name) value)
                 ∧ (value = NullValueNode →
                    null_draw (argument_type argument) = Some NullValueNode))
              ∧ ∀ absent,
                  null_draw (argument_type argument) = Some absent →
                  s (Return (FieldNode (mkNameNode name)
                               (<[i := mkArgumentNode (mkNameNode argument_name)
                                                      absent]> arguments)
                               selection_set)).
Proof.
  intros Hinput.
  pose proof (filter_has_strategy str_float schema depth _ Hinput) as Hkept.
  fold (supported_args field) in Hkept.
  split.
  - intros Hsupported. split; [by apply filter_all|].
    apply field_nodes_is_Return, list_of_arguments_is_Return.
    apply Forall_forall. intros item Hitem _.
    apply has_strategy_supported.
    + by apply (proj1 (Forall_forall _ _) Hinput).
    + by apply (proj1 (Forall_forall _ _) Hsupported).
  - intros s Hs. split; [|split].
    + assert (is_Return (field_nodes str_float schema depth F name field))
        as Hreturn by by exists s.
      apply field_nodes_is_Return, list_of_arguments_is_Return in Hreturn.
      eapply Forall_impl; [exact Hreturn|]. simpl. intros item Hitem Hleaf.
      destruct (is_non_null (argument_type item.2)); [|done].
      rewrite has_strategy_custom_scalar in Hitem by done.
      by specialize (Hitem eq_refl).
    + intros node. by rewrite (field_nodes_draws _ _ _ _ _ _ _ _ Hs), Hkept.
    + intros arguments selection_set Hnode.
      apply (field_nodes_draws _ _ _ _ _ _ _ _ Hs) in Hnode
        as (arguments' & selections & [= <- ->] & Harguments & Hselections).
      rewrite Hkept in Harguments.
      split; [by eapply argument_nodes_drawn_names|].
      intros i argument_name argument Hi.
      destruct (argument_nodes_drawn_lookup _ _ _ _ _ _ _ Harguments Hi)
        as (v & value & Hv & Hvalue & Hlookup).
      split.
      * exists value. split; [done|]. intros ->.
        by apply (value_nodes_Null str_float schema depth _ v).
      * intros absent Habsent.
        apply (field_nodes_draws _ _ _ _ _ _ _ _ Hs).
        exists (<[i := mkArgumentNode (mkNameNode argument_name) absent]> arguments),
               selections.
        split; [done|]. split; [|done]. rewrite Hkept.
        apply (argument_nodes_drawn_insert _ _ _ _ _ _ (argument_name, argument) v);
          [done|done|done|].
        by eapply value_nodes_null_draw.
Qed.

(** [getModel(contain: [Int]): Model]: the field node whose argument
    [contain] is a list node with [values] [None] is drawn, and the field
    node whose argument [contain] is Null is not. *)
Lemma supported_arguments_all_present_witness :
  ∃ s, field_nodes (λ _, "0.0") query_input_schema 1
         (_fields (λ _, "0.0") query_input_schema 1)
         "getModel" getModel_contain_field = Return s
    ∧ s (Return (FieldNode (mkNameNode "getModel")
                   [mkArgumentNode (mkNameNode "contain") (ListValueNode None)]
                   (make_selection_set_node (Some [id_node]))))
    ∧ ¬ s (Return (FieldNode (mkNameNode "getModel")
                     [mkArgumentNode (mkNameNode "contain") NullValueNode]
                     (make_selection_set_node (Some [id_node])))).
Proof.
  destruct (supported_arguments_all_present (λ _, "0.0") query_input_schema 1
              (_fields (λ _, "0.0") query_input_schema 1)
              "getModel" getModel_contain_field) as [Hall Hdraws].
  { repeat constructor. }
  destruct Hall as [_ [s Hs]]; [repeat constructor|].
  exists s. split; [done|].
  destruct (Hdraws s Hs) as (_ & Hiff & Hnull). split.
  - apply Hiff.
    exists [mkArgumentNode (mkNameNode "contain") (ListValueNode None)],
           (Some [id_node]).
    split; [done|]. split.
    + change (argument_nodes_drawn (λ _, "0.0") query_input_schema 1
                [("contain", mkGraphQLArgument (GraphQLList (GraphQLScalarType "Int")))]
                [mkArgumentNode (mkNameNode "contain") (ListValueNode None)]).
      repeat constructor.
      eexists _, (ListValueNode None). split; [reflexivity|]. split; [|done].
      apply map_Return. exists None. split; [by right|done].
    + change (st.map Some (_fields (λ _, "0.0") query_input_schema 1 "Model" None)
                     (Return (Some [id_node]))).
      apply map_Return. exists [id_node]. split; [|done].
      apply (_fields_intro _ _ _ _ _
               [("id", mkGraphQLField (GraphQLScalarType "ID") [])]);
        [done|apply NoDup_singleton| |].
      * apply Forall_singleton. vm_compute. apply list_elem_of_here.
      * constructor; [simpl|constructor].
        eapply field_nodes_intro.
        -- reflexivity.
        -- apply map_Return. exists []. split; [|done].
           apply tuples_Return. constructor.
        -- by apply just_Return.
  - intros Hnode.
    destruct (Hnull _ _ Hnode) as [_ Hargument].
    destruct (Hargument 0 "contain"
                (mkGraphQLArgument (GraphQLList (GraphQLScalarType "Int")))
                eq_refl) as [(value & [= <-] & Hvalue) _].
    by specialize (Hvalue eq_refl).
Defined.

(** * Further properties of the strategies *)

(** ** The primitive values *)

Lemma to_int_not_nil (v : Z) :
  Z.to_int v ≠ Decimal.Pos Decimal.Nil ∧ Z.to_int v ≠ Decimal.Neg Decimal.Nil.
Proof.
  assert (∀ p, Pos.to_uint p ≠ Decimal.Nil) as Hpos.
  { intros p Hnil.
    pose proof (DecimalPos.Unsigned.of_to p) as Hround.
    rewrite Hnil in Hround. discriminate. }
  destruct v as [|p|p]; simpl; split; try discriminate.
  - intros [= Hnil]. by apply (Hpos p).
  - intros [= Hnil]. by apply (Hpos p).
Qed.

Lemma str_int_inj (v w : Z) : str_int v = str_int w → v = w.
Proof.
  unfold str_int. intros Heq.
  destruct (to_int_not_nil v) as [Hv1 Hv2].
  destruct (to_int_not_nil w) as [Hw1 Hw2].
  pose proof (NilZero.isi (Z.to_int v) Hv1 Hv2) as Hv.
  pose proof (NilZero.isi (Z.to_int w) Hw1 Hw2) as Hw.
  rewrite Heq in Hv. rewrite Hv in Hw. injection Hw as Hw.
  by apply DecimalZ.to_int_inj.
Qed.

(** X1: a draw from the Int strategy never raises; it is Null, and that only
    when nullable, or the decimal text of an integer between -2147483648 and
    2147483647, and the text determines the integer. *)
Theorem int_literal_in_range (nullable : bool) (o : result ValueNode) :
  primitives.int_ nullable o →
  (nullable = true ∧ o = Return NullValueNode)
  ∨ ∃ v, (-2147483648 ≤ v ≤ 2147483647)%Z
         ∧ o = Return (IntValueNode (str_int v))
         ∧ ∀ w, o = Return (IntValueNode (str_int w)) → w = v.
Proof.
  intros [(v & Hv & ->) | Hnull]%int_draw; [right | by left].
  exists v. split; [|split; [done|]].
  - unfold primitives.MIN_INT, primitives.MAX_INT in Hv. lia.
  - intros w [= Hw]. symmetry. by apply str_int_inj.
Qed.

Lemma int_literal_in_range_witness :
  ∃ v, (-2147483648 ≤ v ≤ 2147483647)%Z
       ∧ Return (IntValueNode "-2147483648") = Return (IntValueNode (str_int v))
       ∧ ∀ w, Return (IntValueNode "-2147483648")
              = Return (IntValueNode (str_int w)) → w = v.
Proof.
  destruct (int_literal_in_range false (Return (IntValueNode "-2147483648")))
    as [[[=] _] | Hv].
  - apply int_draw. left. exists (-2147483648)%Z. split; [|done].
    unfold primitives.MIN_INT, primitives.MAX_INT. lia.
  - exact Hv.
Defined.

(** X2: a draw from the Float strategy never raises; it is Null, and that only
    when nullable, or the text of a float that is neither infinite nor NaN. *)
Theorem float_literal_finite (str_float : spec_float → string)
    (nullable : bool) (o : result ValueNode) :
  primitives.float_ str_float nullable o →
  (nullable = true ∧ o = Return NullValueNode)
  ∨ ∃ f, finite_float f ∧ o = Return (FloatValueNode (str_float f)).
Proof.
  unfold primitives.float_. rewrite maybe_null_draw.
  intros [[(f & (f' & Hinf & Hnan & [= <-]) & ->)
          | (e & (f' & _ & _ & [=]) & _)] | Hnull]; [right | by left].
  exists f. split; [|done].
  destruct f; simpl in *; done.
Qed.

Lemma float_literal_finite_witness :
  ∃ f, finite_float f
       ∧ Return (FloatValueNode "0.0")
         = Return (FloatValueNode ((λ _, "0.0") f)).
Proof.
  destruct (float_literal_finite (λ _, "0.0") false
              (Return (FloatValueNode "0.0"))) as [[[=] _] | Hf].
  - left. exists (S754_zero false). split; [|done].
    exists (S754_zero false). done.
  - exact Hf.
Defined.

(** X3: the draws of the enum strategy are exactly the declared values of the
    enum, as enum nodes, and Null when nullable; a draw never raises. *)
Theorem enum_draws_declared_values (values : list string) (nullable : bool)
    (o : result ValueNode) :
  primitives.enum values nullable o
  ↔ (∃ v, v ∈ values ∧ o = Return (EnumValueNode v))
    ∨ (nullable = true ∧ o = Return NullValueNode).
Proof.
  unfold primitives.enum. rewrite maybe_null_draw.
  unfold st.map, st.sampled_from. split.
  - intros [[(v & (v' & Hv & [= <-]) & ->) | (e & (v' & _ & [=]) & _)] | Hnull];
      [left | by right].
    eauto.
  - intros [(v & Hv & ->) | Hnull]; [left | by right].
    left. exists v. split; [|done]. eauto.
Qed.

(** ** Which types get a value strategy *)

Section ValueTypes.
Variable str_float : spec_float → string.
Variable schema : GraphQLSchema.
Variable depth : nat.

(** A type that is not an input type makes [value_nodes] raise. *)
Lemma value_nodes_not_input type_ :
  (input_type type_ = false →
   ∃ e, value_nodes str_float schema depth type_ = Raise e)
  ∧ (input_type type_ = false ∨ is_non_null type_ = true →
     ∀ nullable, ∃ e,
       value_nodes_of str_float schema (value_nodes str_float schema depth)
         (value_nodes_deeper str_float schema depth) type_ nullable = Raise e).
Proof.
  induction type_ as [name|name values|name|name|name|name types
                      |of_type [IH1 IH2]|of_type [IH1 IH2]];
    rewrite value_nodes_check_nullable; simpl;
    (split; [intros Hno|intros Hno nullable]); try discriminate;
    try (by destruct Hno); eauto.
  - destruct (IH1 Hno) as [e He]. exists e. by apply lists_Raise.
  - destruct Hno as [Hno|Hno]; [|discriminate].
    destruct (IH1 Hno) as [e He]. exists e. by apply lists_Raise.
  - apply IH2. apply andb_false_iff in Hno as [Hno|Hno]; [|by left].
    right. by apply negb_false_iff.
Qed.
End ValueTypes.

(** X4: [value_nodes] returns a strategy exactly for the input types (list and
    non-null wrappers, never two non-null in a row, around a scalar, an enum
    or an input object) whose leaf is not a custom scalar, and raises for
    every other type; whether it returns does not depend on the depth that
    the engine allows. *)
Theorem value_nodes_returns_iff (str_float : spec_float → string)
    (schema : GraphQLSchema) (depth depth' : nat) (type_ : GraphQLType) :
  (is_Return (value_nodes str_float schema depth type_)
   ↔ input_type type_ = true ∧ custom_scalar_leaf type_ = false)
  ∧ (is_Return (value_nodes str_float schema depth type_)
     ↔ is_Return (value_nodes str_float schema depth' type_)).
Proof.
  assert (∀ d, is_Return (value_nodes str_float schema d type_)
               ↔ input_type type_ = true ∧ custom_scalar_leaf type_ = false)
    as Hiff.
  { intros d. split.
    - intros [s Hs].
      destruct (input_type type_) eqn:Hinput.
      + split; [done|].
        destruct (custom_scalar_leaf type_) eqn:Hleaf; [|done].
        destruct (value_nodes_custom_scalar str_float schema d _ Hleaf)
          as [[msg Hmsg] _].
        congruence.
      + destruct (value_nodes_not_input str_float schema d type_) as [Hno _].
        destruct (Hno Hinput) as [e He]. congruence.
    - intros [Hinput Hleaf]. by apply value_nodes_supported. }
  split; [apply Hiff|]. by rewrite !Hiff.
Qed.

(** X5: when the type, after one non-null wrapper is taken off, is an object,
    an interface or a union type, or one more non-null wrapper, [value_nodes]
    raises the [TypeError] that names the class of that type. *)
Theorem value_nodes_unknown_type (str_float : spec_float → string)
    (schema : GraphQLSchema) (depth : nat) (type_ : GraphQLType) :
  match (check_nullable type_).1 with
  | GraphQLObjectType _ | GraphQLInterfaceType _ | GraphQLUnionType _ _
  | GraphQLNonNull _ => True
  | _ => False
  end →
  value_nodes str_float schema depth type_
  = Raise (TypeError ("Type " ++ class_name (check_nullable type_).1
                      ++ " is not supported.")).
Proof.
  rewrite value_nodes_check_nullable.
  by destruct (check_nullable type_).1.
Qed.

Lemma value_nodes_unknown_type_witness :
  value_nodes (λ _, "0.0") query_input_schema 1
    (GraphQLNonNull (GraphQLObjectType "Model"))
  = Raise (TypeError "Type GraphQLObjectType is not supported.").
Proof.
  exact (value_nodes_unknown_type (λ _, "0.0") query_input_schema 1
           (GraphQLNonNull (GraphQLObjectType "Model")) I).
Defined.

(** ** Lists *)

(** X6: for a list type whose element type has a strategy, [value_nodes]
    returns a strategy; a draw from it is a list node of values drawn
    from the element strategy (any number of them, none included), or, the
    list type being nullable, a list node whose [values] is [None]; it raises
    only what a draw of an element raises. *)
Theorem list_value_draws (str_float : spec_float → string)
    (schema : GraphQLSchema) (depth : nat) (of_type : GraphQLType)
    (elements : SearchStrategy ValueNode) :
  value_nodes str_float schema depth of_type = Return elements →
  ∃ s, value_nodes str_float schema depth (GraphQLList of_type) = Return s
    ∧ (∀ o, s o
         ↔ (∃ values, Forall (λ v, elements (Return v)) values
                      ∧ o = Return (ListValueNode (Some values)))
           ∨ o = Return (ListValueNode None)
           ∨ (∃ e, elements (Raise e) ∧ o = Raise e))
    ∧ s (Return (ListValueNode (Some []))).
Proof.
  intros Helements. rewrite (value_nodes_check_nullable _ _ _ (GraphQLList _)).
  simpl. unfold lists. rewrite Helements. simpl.
  eexists. split; [reflexivity|].
  assert (∀ o, st.builds ListValueNode
                 (st.map Some (st.lists elements 0 None) ||| st.none) o
         ↔ (∃ values, Forall (λ v, elements (Return v)) values
                      ∧ o = Return (ListValueNode (Some values)))
           ∨ o = Return (ListValueNode None)
           ∨ (∃ e, elements (Raise e) ∧ o = Raise e)) as Hdraws.
  { intros o. unfold st.builds, st.map, st.one_of, st.none, st.just, st.lists.
    split.
    - intros [(values & [[(l & [(l' & _ & Hl' & _ & [= <-]) | (e & _ & [=])] & [= ->])
                          | (e & _ & [=])] | [= ->]] & ->)
              | (e & [[(l & _ & [=]) | (e' & [(l & _ & _ & _ & [=])
                                             | (e'' & He'' & [= <-])] & [= <-])]
                      | [=]] & ->)].
      + left. eauto.
      + right; left. done.
      + right; right. eauto.
    - intros [(values & Hvalues & ->) | [-> | (e & He & ->)]].
      + left. exists (Some values). split; [|done]. left. left.
        exists values. split; [|done]. left. exists values.
        split; [simpl; lia|]. done.
      + left. exists None. split; [|done]. by right.
      + right. exists e. split; [|done]. left. right. exists e.
        split; [|done]. right. eauto. }
  split; [exact Hdraws|].
  apply Hdraws. left. exists []. split; [constructor|done].
Qed.

Lemma list_value_draws_witness :
  ∃ s, value_nodes (λ _, "0.0") query_input_schema 1
         (GraphQLList (GraphQLScalarType "Boolean")) = Return s
    ∧ s (Return (ListValueNode (Some []))).
Proof.
  destruct (list_value_draws (λ _, "0.0") query_input_schema 1
              (GraphQLScalarType "Boolean") (primitives.boolean true) eq_refl)
    as (s & Hs & _ & Hempty).
  eauto.
Defined.

(** X7: a value of a non-null type is never drawn as Null, and the values in
    a list of a non-null element type are never Null. *)
Theorem required_value_never_null (str_float : spec_float → string)
    (schema : GraphQLSchema) (depth : nat) (of_type : GraphQLType)
    (s : SearchStrategy ValueNode) :
  value_nodes str_float schema depth (GraphQLNonNull of_type) = Return s →
  ¬ s (Return NullValueNode)
  ∧ ∃ s', value_nodes str_float schema depth
            (GraphQLList (GraphQLNonNull of_type)) = Return s'
          ∧ ∀ values, s' (Return (ListValueNode (Some values))) →
                      NullValueNode ∉ values.
Proof.
  intros Hs. split; [by eapply non_null_never_null|].
  destruct (list_value_draws _ _ _ _ _ Hs) as (s' & Hs' & Hdraws & _).
  exists s'. split; [done|].
  intros values [(values' & Hvalues & [= <-]) | [[=] | (e & _ & [=])]]%Hdraws.
  intros Hnull. apply (proj1 (Forall_forall _ _) Hvalues) in Hnull.
  by eapply non_null_never_null.
Qed.

Lemma required_value_never_null_witness :
  ¬ primitives.int_ false (Return NullValueNode).
Proof.
  exact (proj1 (required_value_never_null (λ _, "0.0") query_input_schema 1
                  (GraphQLScalarType "Int") (primitives.int_ false) eq_refl)).
Defined.

(** ** Input objects *)

Section ObjectFacts.
Variable str_float : spec_float → string.
Variable schema : GraphQLSchema.

Lemma list_of_object_field_nodes_draw value_nodes items s l :
  list_of_object_field_nodes value_nodes items = Return s → s (Return l) →
  Forall2 (λ item node, ∃ value_s,
             value_nodes (input_field_type item.2) = Return value_s
             ∧ value_s (Return (object_field_value node))
             ∧ object_field_name node = item.1) items l.
Proof.
  unfold list_of_object_field_nodes, list_of_nodes.
  destruct (mapM _ items) as [nodes|e] eqn:E; [|discriminate].
  intros [= <-] (l' & Hl' & ->)%map_Return.
  apply tuples_Return in Hl'. apply mapM_Return in E. unfold list_.
  revert l' Hl'. induction E as [|item node_s items nodes Hitem E IH];
    intros l' Hl'.
  - apply Forall2_nil_inv_l in Hl' as ->. constructor.
  - apply Forall2_cons_inv_l in Hl' as (node & l'' & Hnode & Hl'' & ->).
    constructor; [|by apply IH].
    unfold object_field_nodes in Hitem.
    destruct (value_nodes (input_field_type item.2)) as [value_s|e];
      [|discriminate].
    injection Hitem as <-. apply map_Return in Hnode as (value & Hvalue & ->).
    eauto.
Qed.

Lemma list_of_object_field_nodes_single value_nodes name field value_s value :
  value_nodes (input_field_type field) = Return value_s →
  value_s (Return value) →
  ∃ s, list_of_object_field_nodes value_nodes [(name, field)] = Return s
       ∧ s (Return [mkObjectFieldNode (mkNameNode name) value]).
Proof.
  intros Hvalue_s Hvalue.
  unfold list_of_object_field_nodes, list_of_nodes, object_field_nodes. simpl.
  rewrite Hvalue_s. simpl. eexists. split; [reflexivity|].
  apply map_Return. eexists. split; [|reflexivity].
  apply tuples_Return. constructor; [|constructor].
  apply map_Return. eauto.
Qed.

Lemma objects_draw value_nodes fields nullable v :
  objects value_nodes fields nullable (Return v) →
  (nullable = true ∧ v = ObjectValueNode None)
  ∨ ∃ items l,
      v = ObjectValueNode (Some l)
      ∧ items ≠ [] ∧ NoDup items.*1
      ∧ Forall (λ item, item ∈ fields) items
      ∧ Forall2 (λ item node, ∃ value_s,
                   value_nodes (input_field_type item.2) = Return value_s
                   ∧ value_s (Return (object_field_value node))
                   ∧ object_field_name node = item.1) items l.
Proof.
  unfold objects. intros (fields_value & Hfields_value & ->)%map_Return.
  assert (st.map Some (st.flatmap (subset_of_fields fields)
                         (list_of_object_field_nodes value_nodes))
            (Return fields_value)
          ∨ (nullable = true ∧ fields_value = None)) as [Hsome | [-> ->]].
  { destruct nullable; [|by left].
    destruct Hfields_value as [Hsome | [= ->]]; [by left | by right]. }
  - right. apply map_Return in Hsome as (l & Hl & ->).
    apply flatmap_Return in Hl as (items & s & Hitems & Hs & Hl).
    apply subset_of_fields_Return in Hitems as (Hne & Hall & Hnodup).
    exists items, l. repeat (split; [done|]).
    by eapply list_of_object_field_nodes_draw.
  - by left.
Qed.
End ObjectFacts.

(** X8: for an input object type, [value_nodes] returns a strategy.  A value
    drawn from it is an object node without fields ([fields] is [None]; only
    when the type is not wrapped as non-null) or an object node with at least
    one field, the field names pairwise distinct, each field declared by the
    input object type under that name and with a value drawn from the
    strategy of the declared type, one level down. *)
Theorem object_value_draws (str_float : spec_float → string)
    (schema : GraphQLSchema) (depth : nat) (T : string) :
  ∃ s s',
    value_nodes str_float schema depth (GraphQLInputObjectType T) = Return s
    ∧ value_nodes str_float schema depth
        (GraphQLNonNull (GraphQLInputObjectType T)) = Return s'
    ∧ ¬ s' (Return (ObjectValueNode None))
    ∧ ∀ v, s (Return v) ∨ s' (Return v) →
        v = ObjectValueNode None
        ∨ ∃ l, v = ObjectValueNode (Some l)
            ∧ l ≠ []
            ∧ NoDup (object_field_name <$> l)
            ∧ Forall (λ node, ∃ field value_s,
                (object_field_name node, field) ∈ input_object_fields schema T
                ∧ value_nodes_deeper str_float schema depth
                    (input_field_type field) = Return value_s
                ∧ value_s (Return (object_field_value node))) l.
Proof.
  rewrite !value_nodes_check_nullable. simpl.
  eexists. eexists. split; [reflexivity|]. split; [reflexivity|].
  assert (∀ nullable v,
    objects (value_nodes_deeper str_float schema depth)
            (input_object_fields schema T) nullable (Return v) →
    (nullable = true ∧ v = ObjectValueNode None)
    ∨ ∃ l, v = ObjectValueNode (Some l)
        ∧ l ≠ []
        ∧ NoDup (object_field_name <$> l)
        ∧ Forall (λ node, ∃ field value_s,
            (object_field_name node, field) ∈ input_object_fields schema T
            ∧ value_nodes_deeper str_float schema depth
                (input_field_type field) = Return value_s
            ∧ value_s (Return (object_field_value node))) l) as Hdraws.
  { intros nullable v
      [Hnone | (items & l & -> & Hne & Hnodup & Hall & Hl)]%objects_draw;
      [by left | right].
    exists l. split; [done|]. split; [|split].
    - intros ->. by apply Forall2_nil_inv_r in Hl.
    - assert (object_field_name <$> l = items.*1) as Hnames.
      { clear -Hl.
        induction Hl as [|item node items l (? & _ & _ & Hname) _ IH]; [done|].
        rewrite !fmap_cons. by rewrite Hname, IH. }
      by rewrite Hnames.
    - apply Forall_forall. intros node Hnode.
      apply list_elem_of_lookup in Hnode as [i Hnode].
      destruct (Forall2_lookup_r _ _ _ _ _ Hl Hnode)
        as ([name field] & Hitem & value_s & Hvalue_s & Hvalue & Hname).
      simpl in *. exists field, value_s. rewrite Hname.
      split; [|done].
      eapply (proj1 (Forall_forall _ _) Hall).
      by eapply list_elem_of_lookup_2. }
  split.
  - intros [[[=] _] | (l & [=] & _)]%Hdraws.
  - intros v [[[_ ->] | Hv]%Hdraws | [[_ ->] | Hv]%Hdraws]; auto.
Qed.

(** X9: an input object type with a field whose leaf type is a custom scalar
    still gets a strategy, so that an argument of this type is not left out
    by [list_of_arguments]; the custom scalar error is raised by a draw, when
    the fields of the object are expanded. *)
Theorem custom_scalar_in_input_object (str_float : spec_float → string)
    (schema : GraphQLSchema) (depth : nat) (T name : string)
    (field : GraphQLInputField) :
  (name, field) ∈ input_object_fields schema T →
  custom_scalar_leaf (input_field_type field) = true →
  ∃ s msg,
    value_nodes str_float schema (S depth) (GraphQLInputObjectType T) = Return s
    ∧ s (Raise (TypeError msg))
    ∧ ∀ argument_name,
        has_strategy str_float schema (S depth)
          (argument_name, mkGraphQLArgument (GraphQLInputObjectType T)) = true.
Proof.
  intros Hin Hleaf.
  destruct (value_nodes_custom_scalar str_float schema depth _ Hleaf)
    as [[msg Hmsg] _].
  rewrite value_nodes_check_nullable. simpl.
  eexists. exists msg. split; [reflexivity|]. split; [|done].
  apply map_Raise. left. apply map_Raise.
  apply (flatmap_expand_Raise _ _ [(name, field)]).
  - apply subset_of_fields_Return. split; [done|]. split.
    + by apply Forall_singleton.
    + apply NoDup_singleton.
  - unfold list_of_object_field_nodes, list_of_nodes, object_field_nodes.
    simpl. by rewrite Hmsg.
Qed.

Lemma custom_scalar_in_input_object_witness :
  ∃ s msg,
    value_nodes (λ _, "0.0") query_input_schema 1
      (GraphQLInputObjectType "QueryInput") = Return s
    ∧ s (Raise (TypeError msg))
    ∧ ∀ argument_name,
        has_strategy (λ _, "0.0") query_input_schema 1
          (argument_name, mkGraphQLArgument (GraphQLInputObjectType "QueryInput"))
        = true.
Proof.
  apply (custom_scalar_in_input_object (λ _, "0.0") query_input_schema 0
           "QueryInput" "created" (mkGraphQLInputField (GraphQLScalarType "Date"))).
  - vm_compute. set_solver.
  - reflexivity.
Defined.

(** X10: any one declared field of an input object type, with a value that
    its type can be drawn as, makes an object value that is drawn, whatever
    other fields the type declares, non-null ones included. *)
Theorem object_value_single_field (str_float : spec_float → string)
    (schema : GraphQLSchema) (depth : nat) (T name : string)
    (field : GraphQLInputField)
    (value_s : SearchStrategy ValueNode) (value : ValueNode) :
  (name, field) ∈ input_object_fields schema T →
  value_nodes str_float schema depth (input_field_type field) = Return value_s →
  value_s (Return value) →
  ∃ s, value_nodes str_float schema (S depth) (GraphQLInputObjectType T)
       = Return s
    ∧ s (Return (ObjectValueNode
                   (Some [mkObjectFieldNode (mkNameNode name) value]))).
Proof.
  intros Hin Hvalue_s Hvalue.
  rewrite value_nodes_check_nullable. simpl.
  eexists. split; [reflexivity|].
  apply map_Return. eexists. split; [|reflexivity].
  left. apply map_Return. eexists. split; [|reflexivity].
  destruct (list_of_object_field_nodes_single
              (value_nodes str_float schema depth) name field value_s value
              Hvalue_s Hvalue) as (s & Hs & Hdrawn).
  apply flatmap_Return. exists [(name, field)], s. split; [|done].
  apply subset_of_fields_Return. split; [done|]. split.
  - by apply Forall_singleton.
  - apply NoDup_singleton.
Qed.

Lemma object_value_single_field_witness :
  ∃ s, value_nodes (λ _, "0.0") query_input_schema 1
         (GraphQLInputObjectType "QueryInput") = Return s
    ∧ s (Return (ObjectValueNode
                   (Some [mkObjectFieldNode (mkNameNode "eq")
                            (StringValueNode [])]))).
Proof.
  apply (object_value_single_field (λ _, "0.0") query_input_schema 0
           "QueryInput" "eq" (mkGraphQLInputField (GraphQLScalarType "String"))
           (primitives.string true) (StringValueNode [])).
  - vm_compute. set_solver.
  - reflexivity.
  - apply string_draw. left. by exists [].
Defined.

(** ** Selections *)

(** X11: the field nodes of a selection set that is drawn have pairwise
    distinct names, each one the name of a field of the object type that
    [fields] allows; so there are at most as many as the type has such
    fields. *)
Theorem selection_names_distinct (str_float : spec_float → string)
    (schema : GraphQLSchema) (depth : nat) (object_type : string)
    (fields : option (list string)) (l : list SelectionNode) :
  _fields str_float schema depth object_type fields (Return l) →
  NoDup (field_name <$> l)
  ∧ Forall (λ node, ∃ name field,
              field_name node = Some name
              ∧ (name, field) ∈ eligible schema object_type fields) l.
Proof.
  intros Hdraw.
  apply _fields_draw in Hdraw as (depth' & items & -> & _ & Hnodup & Heligible & Hnodes).
  assert (Forall2 (λ item node, field_name node = Some item.1) items l) as Hnames.
  { eapply Forall2_impl; [exact Hnodes|]. simpl.
    intros item node (node_s & Hnode_s & Hnode).
    by destruct (field_nodes_draw _ _ _ _ _ _ _ _ Hnode_s Hnode)
      as (arguments & selections & -> & _). }
  split.
  - assert (field_name <$> l = Some <$> items.*1) as ->.
    { clear -Hnames. induction Hnames as [|item node items l Hname _ IH]; [done|].
      rewrite !fmap_cons. by rewrite Hname, IH. }
    apply NoDup_fmap_2; [|done]. by intros x y [= ->].
  - apply Forall_forall. intros node Hnode.
    apply list_elem_of_lookup in Hnode as [i Hnode].
    destruct (Forall2_lookup_r _ _ _ _ _ Hnames Hnode)
      as ([name field] & Hitem & Hname).
    exists name, field. split; [done|].
    eapply (proj1 (Forall_forall _ _) Heligible).
    by eapply list_elem_of_lookup_2.
Qed.

Lemma selection_names_distinct_witness :
  NoDup (field_name <$> [getByDate_node]).
Proof.
  apply (selection_names_distinct (λ _, "0.0") optional_date_schema 2 "Query" None).
  apply optional_date_draw. vm_compute. apply list_elem_of_here.
Defined.

(** X12: for a field of a union type, what is drawn below it is a non-empty
    list of inline fragments on pairwise distinct types, each a member of the
    union. *)
Theorem union_fragments_distinct
    (F : string → option (list string) → SearchStrategy (list SelectionNode))
    (field : GraphQLField) (name : string) (types : list string)
    (selections : option (list SelectionNode)) :
  unwrap (field_type field) = GraphQLUnionType name types →
  fields_for_type F field (Return selections) →
  ∃ l, selections = Some l
    ∧ l ≠ []
    ∧ NoDup (type_condition_name <$> l)
    ∧ Forall (λ node, ∃ member, type_condition_name node = Some member
                                ∧ member ∈ types) l.
Proof.
  intros Hunion. unfold fields_for_type. rewrite Hunion.
  intros (l & (members & s & Hmembers & Hs & Hl)%flatmap_Return & ->)%map_Return.
  apply lists_Return in Hmembers as (Hlen & Hall & Hkey).
  pose proof (Hkey _ eq_refl) as Hnodup. rewrite list_fmap_id in Hnodup.
  pose proof (inline_fragments_draw _ _ _ _ Hs Hl) as Hfragments.
  assert (Forall2 (λ member node, type_condition_name node = Some member)
                  members l) as Hnames.
  { eapply Forall2_impl; [exact Hfragments|]. simpl.
    by intros member node (l' & -> & _)%inline_fragment_draw. }
  exists l. split; [done|]. split; [|split].
  - intros ->. apply Forall2_nil_inv_r in Hnames as ->. simpl in Hlen. lia.
  - assert (type_condition_name <$> l = Some <$> members) as ->.
    { clear -Hnames. induction Hnames as [|member node members l Hname _ IH];
        [done|].
      rewrite !fmap_cons. by rewrite Hname, IH. }
    apply NoDup_fmap_2; [|done]. by intros x y [= ->].
  - apply Forall_forall. intros node Hnode.
    apply list_elem_of_lookup in Hnode as [i Hnode].
    destruct (Forall2_lookup_r _ _ _ _ _ Hnames Hnode)
      as (member & Hmember & Hname).
    exists member. split; [done|].
    apply list_elem_of_lookup_2 in Hmember.
    apply (proj1 (Forall_forall _ _) Hall) in Hmember.
    by apply sampled_from_Return in Hmember.
Qed.

Lemma union_fragments_distinct_witness :
  ∃ l, Some [InlineFragmentNode (mkNamedTypeNode (mkNameNode "StringModel"))
               (make_selection_set_node (Some [created_node]))] = Some l
    ∧ l ≠ []
    ∧ NoDup (type_condition_name <$> l)
    ∧ Forall (λ node, ∃ member, type_condition_name node = Some member
                                ∧ member ∈ ["FloatModel"; "StringModel"]) l.
Proof.
  apply (union_fragments_distinct (λ _ _, st.just [created_node])
           (mkGraphQLField
              (GraphQLUnionType "Conflict" ["FloatModel"; "StringModel"]) [])
           "Conflict" ["FloatModel"; "StringModel"] _ eq_refl).
  apply map_Return. eexists. split; [|reflexivity].
  apply flatmap_Return. exists ["StringModel"]. eexists.
  split; [|split; [reflexivity|]].
  - apply lists_Return. split; [simpl; lia|]. split.
    + apply Forall_singleton. apply sampled_from_Return. set_solver.
    + intros key [= <-]. apply NoDup_singleton.
  - apply map_Return. eexists. split; [|reflexivity].
    apply tuples_Return. constructor; [|constructor].
    apply map_Return. eexists. split; [|reflexivity].
    apply map_Return. eexists. split; [|reflexivity].
    apply map_Return. eexists. split; [|reflexivity]. reflexivity.
Defined.

(** X13: a field without arguments whose unwrapped type is neither an object
    nor a union type (a scalar, custom ones included, an enum, an interface)
    always gets a strategy, and the one thing drawn from it is the field
    node with no arguments and no selections; nothing is raised. *)
Theorem leaf_field_node (str_float : spec_float → string)
    (schema : GraphQLSchema) (depth : nat)
    (F : string → option (list string) → SearchStrategy (list SelectionNode))
    (name : string) (field : GraphQLField) :
  args field = [] →
  match unwrap (field_type field) with
  | GraphQLObjectType _ | GraphQLUnionType _ _ => False
  | _ => True
  end →
  ∃ s, field_nodes str_float schema depth F name field = Return s
    ∧ ∀ o, s o ↔ o = Return (FieldNode (mkNameNode name) []
                                       (make_selection_set_node None)).
Proof.
  intros Hargs Hleaf. unfold field_nodes. rewrite Hargs. simpl.
  eexists. split; [reflexivity|].
  assert (fields_for_type F field = st.none) as ->.
  { unfold fields_for_type. by destruct (unwrap (field_type field)). }
  assert (∀ o, st.map list_ (st.tuples ([] : list (SearchStrategy ArgumentNode))) o
               ↔ o = Return []) as Harguments.
  { intros o. unfold st.map, st.tuples. split.
    - intros [(l & [(l' & ->%Forall2_nil_inv_l & [= <-])
                    | (? & ? & ? & ? & ? & _ & _ & _ & [=])] & ->)
              | (e & [(l' & _ & [=])
                      | (before & s & after & l & e' & Hsplit & _)] & _)].
      + done.
      + by destruct before.
    - intros ->. left. exists []. split; [|done]. left. exists [].
      split; [constructor|done]. }
  assert (∀ o, st.builds make_selection_set_node st.none o
               ↔ o = Return (make_selection_set_node None)) as Hselections.
  { intros o. unfold st.builds, st.map, st.none, st.just. split.
    - by intros [(selections & [= ->] & ->) | (e & [=] & _)].
    - intros ->. left. by exists None. }
  intros o. unfold st.builds2. split.
  - intros [(arguments & ss & [= ->]%Harguments & [= ->]%Hselections & ->)
            | [(e & [=]%Harguments & _) | (a & e & _ & [=]%Hselections & _)]].
    done.
  - intros ->. left. exists [], (make_selection_set_node None).
    split; [by apply Harguments|]. split; [by apply Hselections|done].
Qed.

Lemma leaf_field_node_witness :
  ∃ s, field_nodes (λ _, "0.0") optional_date_schema 1
         (_fields (λ _, "0.0") optional_date_schema 1) "created" created_field
       = Return s
    ∧ ∀ o, s o ↔ o = Return created_node.
Proof.
  exact (leaf_field_node (λ _, "0.0") optional_date_schema 1
           (_fields (λ _, "0.0") optional_date_schema 1) "created" created_field
           eq_refl I).
Defined.

(** ** The fields that are eligible *)

Lemma _fields_eligible str_float schema depth object_type fields :
  _fields str_float schema (S depth) object_type fields
  = st.flatmap (subset_of_fields (eligible schema object_type fields))
      (lists_of_field_nodes str_float schema depth
         (_fields str_float schema depth)).
Proof. by destruct fields as [[|name names]|]. Qed.

(** X14: of a given [fields] only the set of its names counts: two non-empty
    [fields] with the same names, in whatever order and however often, give
    the same strategy, and a [fields] that holds the name of every field of
    the type gives the strategy of no [fields] at all. *)
Theorem fields_restriction_is_a_set (str_float : spec_float → string)
    (schema : GraphQLSchema) (depth : nat) (object_type : string)
    (names names' : list string) :
  names ≠ [] → names' ≠ [] →
  ((∀ name, name ∈ names ↔ name ∈ names') →
   _fields str_float schema depth object_type (Some names)
   = _fields str_float schema depth object_type (Some names'))
  ∧ ((∀ name, name ∈ (object_fields schema object_type).*1 → name ∈ names) →
     _fields str_float schema depth object_type (Some names)
     = _fields str_float schema depth object_type None).
Proof.
  intros Hne Hne'. destruct depth as [|depth]; [done|].
  rewrite !_fields_eligible.
  destruct names as [|name names]; [done|].
  destruct names' as [|name' names']; [done|].
  unfold eligible. split.
  - intros Hsame. f_equal. f_equal. apply list_filter_iff.
    intros item. apply Hsame.
  - intros Hall. f_equal. f_equal.
    induction (object_fields schema object_type) as [|item items IH]; [done|].
    rewrite filter_cons_True.
    + f_equal. apply IH. intros name'' Hname''. apply Hall.
      rewrite fmap_cons. by apply list_elem_of_further.
    + apply Hall. rewrite fmap_cons. apply list_elem_of_here.
Qed.

Lemma fields_restriction_is_a_set_witness :
  _fields (λ _, "0.0") optional_date_schema 2 "Query"
    (Some ["getByDate"; "getByDate"])
  = _fields (λ _, "0.0") optional_date_schema 2 "Query" None.
Proof.
  apply (fields_restriction_is_a_set (λ _, "0.0") optional_date_schema 2 "Query"
           ["getByDate"; "getByDate"] ["getByDate"]); [done|done|].
  vm_compute. set_solver.
Defined.

(** A list sorted by name, with distinct names, is determined by its
    elements. *)
Lemma sorted_by_name_unique {F} (l l' : list (string * F)) :
  NoDup l.*1 → l ≡ₚ l' →
  StronglySorted (λ x y, String.le x.1 y.1) l →
  StronglySorted (λ x y, String.le x.1 y.1) l' →
  l = l'.
Proof.
  revert l'. induction l as [|x l IH]; intros l' Hnodup Hperm Hl Hl'.
  { by apply Permutation_nil_l in Hperm. }
  destruct l' as [|y l']; [by apply Permutation_nil_r in Hperm|].
  apply StronglySorted_inv in Hl as [Hl Hx].
  apply StronglySorted_inv in Hl' as [Hl' Hy].
  assert (x.1 = y.1) as Hkey.
  { assert (y ∈ x :: l) as Hyin by (rewrite Hperm; apply list_elem_of_here).
    assert (x ∈ y :: l') as Hxin by (rewrite <- Hperm; apply list_elem_of_here).
    apply elem_of_cons in Hyin as [->|Hyin]; [done|].
    apply elem_of_cons in Hxin as [->|Hxin]; [done|].
    apply (anti_symm String.le).
    - by apply (proj1 (Forall_forall _ _) Hx).
    - by apply (proj1 (Forall_forall _ _) Hy). }
  assert (x = y) as <-.
  { assert (y ∈ x :: l) as Hyin by (rewrite Hperm; apply list_elem_of_here).
    destruct x as [k v], y as [k' v']. simpl in Hkey. subst k'.
    f_equal. eapply (NoDup_fst_inj ((k, v) :: l)); [done| |done].
    apply list_elem_of_here. }
  f_equal. apply IH; [|by eapply Permutation_cons_inv|done|done].
  rewrite fmap_cons in Hnodup. by apply NoDup_cons in Hnodup as [_ Hnodup].
Qed.

(** X15: the order in which a type declares its fields does not matter to
    [subset_of_fields]: for two orders of the same fields, the names being
    distinct, the candidates after sorting are the same list and the strategy
    is the same. *)
Theorem subset_of_fields_order_free (F : Type)
    (all_fields all_fields' : list (string * F)) :
  NoDup all_fields.*1 → all_fields ≡ₚ all_fields' →
  sorted all_fields = sorted all_fields'
  ∧ subset_of_fields all_fields = subset_of_fields all_fields'.
Proof.
  intros Hnodup Hperm.
  assert (sorted all_fields = sorted all_fields') as Hsorted.
  { apply sorted_by_name_unique.
    - by rewrite sorted_Permutation.
    - by rewrite !sorted_Permutation.
    - apply sorted_by_name.
    - apply sorted_by_name. }
  split; [done|]. unfold subset_of_fields. by rewrite Hsorted.
Qed.

Lemma subset_of_fields_order_free_witness :
  sorted [("getBooks", 1); ("getAuthors", 2)]
  = sorted [("getAuthors", 2); ("getBooks", 1)]
  ∧ subset_of_fields [("getBooks", 1); ("getAuthors", 2)]
    = subset_of_fields [("getAuthors", 2); ("getBooks", 1)].
Proof.
  apply (subset_of_fields_order_free nat).
  - simpl. repeat constructor; set_solver.
  - apply Permutation_swap.
Defined.

(** ** When a field node can be built *)

(** X16: for a field whose arguments are input types, [field_nodes] raises
    exactly when some argument is non-null and has a custom scalar as its
    leaf type, and what it raises then is the error about non-null custom
    scalar arguments; otherwise it returns a strategy. *)
Theorem field_nodes_raises_iff (str_float : spec_float → string)
    (schema : GraphQLSchema) (depth : nat)
    (F : string → option (list string) → SearchStrategy (list SelectionNode))
    (name : string) (field : GraphQLField) :
  Forall (λ item, input_type (argument_type item.2) = true) (args field) →
  (requires_custom_scalar field
   ↔ field_nodes str_float schema depth F name field
     = Raise not_supported_as_argument)
  ∧ (¬ requires_custom_scalar field
     ↔ is_Return (field_nodes str_float schema depth F name field))
  ∧ ∀ e, field_nodes str_float schema depth F name field = Raise e →
         e = not_supported_as_argument.
Proof.
  intros Hinput.
  assert (¬ requires_custom_scalar field →
          is_Return (field_nodes str_float schema depth F name field)) as Hreturn.
  { intros Hnot. unfold field_nodes, list_of_arguments.
    destruct (list_of_arguments_args_is_Return str_float schema depth (args field))
      as [arguments Harguments].
    - apply Forall_forall. intros [argument_name argument] Hin Hno.
      destruct (is_non_null (argument_type argument)) eqn:Hnn; [|done].
      exfalso. apply Hnot. exists argument_name, argument.
      split; [done|]. split; [done|].
      destruct (custom_scalar_leaf (argument_type argument)) eqn:Hleaf; [done|].
      apply (proj1 (Forall_forall _ _) Hinput) in Hin.
      rewrite (has_strategy_supported str_float schema depth
                 (argument_name, argument) Hin Hleaf) in Hno.
      discriminate.
    - rewrite Harguments. simpl. by eexists. }
  split; [|split].
  - split; [apply field_nodes_required|].
    intros Hraise.
    destruct (decide (Exists (λ item,
                is_non_null (argument_type item.2) = true
                ∧ custom_scalar_leaf (argument_type item.2) = true) (args field)))
      as [Hsome|Hnone].
    + apply Exists_exists in Hsome as ([argument_name argument] & Hin & Hitem).
      by exists argument_name, argument.
    + destruct Hreturn as [s Hs]; [|congruence].
      intros (argument_name & argument & Hin & Hitem). apply Hnone.
      apply Exists_exists. by exists (argument_name, argument).
  - split; [exact Hreturn|].
    intros [s Hs] Hrequired.
    rewrite (field_nodes_required _ _ _ _ _ _ Hrequired) in Hs. discriminate.
  - apply field_nodes_Raise.
Qed.

Lemma field_nodes_raises_iff_witness :
  field_nodes (λ _, "0.0") required_date_schema 1
    (_fields (λ _, "0.0") required_date_schema 1) "getByDate"
    (getByDate_field (GraphQLNonNull (GraphQLScalarType "Date")))
  = Raise not_supported_as_argument.
Proof.
  apply (field_nodes_raises_iff (λ _, "0.0") required_date_schema 1
           (_fields (λ _, "0.0") required_date_schema 1) "getByDate"
           (getByDate_field (GraphQLNonNull (GraphQLScalarType "Date")))).
  - repeat constructor.
  - exists "created", (mkGraphQLArgument (GraphQLNonNull (GraphQLScalarType "Date"))).
    split; [apply list_elem_of_here|]. split; reflexivity.
Defined.

(** ** Fields that cannot be built are nowhere in a document *)

Section Reach.
Variable str_float : spec_float → string.
Variable schema : GraphQLSchema.

(** A node of a selection set that is drawn. *)
Lemma _fields_draw_node depth object_type fields l node :
  _fields str_float schema depth object_type fields (Return l) →
  node ∈ l →
  ∃ depth' name field arguments selections,
    depth = S depth'
    ∧ node = FieldNode (mkNameNode name) arguments
                       (make_selection_set_node selections)
    ∧ (name, field) ∈ eligible schema object_type fields
    ∧ is_Return (field_nodes str_float schema depth'
                   (_fields str_float schema depth') name field)
    ∧ fields_for_type (_fields str_float schema depth') field (Return selections).
Proof.
  intros Hdraw Hnode.
  apply _fields_draw in Hdraw as (depth' & items & -> & _ & _ & Heligible & Hnodes).
  apply list_elem_of_lookup in Hnode as [i Hnode].
  destruct (Forall2_lookup_r _ _ _ _ _ Hnodes Hnode)
    as ([name field] & Hitem & node_s & Hnode_s & Hdrawn).
  simpl in *.
  destruct (field_nodes_draw _ _ _ _ _ _ _ _ Hnode_s Hdrawn)
    as (arguments & selections & -> & _ & Hselections).
  exists depth', name, field, arguments, selections.
  split; [done|]. split; [done|]. split; [|split; [by eexists|done]].
  eapply (proj1 (Forall_forall _ _) Heligible).
  by eapply list_elem_of_lookup_2.
Qed.
End Reach.

(** X17: let every object type of the schema declare each field name once.
    In a selection set that is drawn, no field with a non-null argument whose
    leaf type is a custom scalar is selected, neither at the top nor anywhere
    below, through object fields and through the fragments of unions. *)
Theorem never_selects_required_custom_scalar (str_float : spec_float → string)
    (schema : GraphQLSchema) (depth : nat) (object_type : string)
    (fields : option (list string)) (l : list SelectionNode)
    (T' name : string) (field : GraphQLField) :
  (∀ T, NoDup (object_fields schema T).*1) →
  _fields str_float schema depth object_type fields (Return l) →
  reaches schema object_type l T' name →
  (name, field) ∈ object_fields schema T' →
  ¬ requires_custom_scalar field.
Proof.
  intros Hnodup Hdraw Hreach Hfield Hrequired.
  revert depth fields Hdraw.
  induction Hreach as [T l name arguments selection_set Hnode
                      |T l parent parent_field arguments kind l' T2 T' name
                         Hnode Hparent Hunwrap Hreach IH
                      |T l parent arguments kind fragments member kind' l' T' name
                         Hnode Hfragment Hreach IH];
    intros depth fields Hdraw.
  - eapply (_fields_never_required str_float schema depth T fields name field l);
      try done.
    apply list_elem_of_fmap. eexists. split; [|exact Hnode]. done.
  - destruct (_fields_draw_node _ _ _ _ _ _ _ Hdraw Hnode)
      as (depth' & name' & field' & arguments' & selections & -> & [= -> -> -> <-]
          & Heligible & _ & Hselections).
    apply eligible_object_fields in Heligible.
    rewrite (NoDup_fst_inj _ _ _ _ (Hnodup T) Heligible Hparent) in Hselections.
    apply fields_for_type_draw in Hselections. rewrite Hunwrap in Hselections.
    destruct Hselections as (l0 & [= <-] & Hl0).
    by eapply IH.
  - destruct (_fields_draw_node _ _ _ _ _ _ _ Hdraw Hnode)
      as (depth' & name' & field' & arguments' & selections & -> & [= -> -> -> <-]
          & Heligible & _ & Hselections).
    apply fields_for_type_draw in Hselections.
    destruct (unwrap (field_type field')) as [| | |T2| |T2 types| |];
      try discriminate.
    + destruct Hselections as (l0 & [= <-] & Hl0).
      destruct (_fields_draw_node _ _ _ _ _ _ _ Hl0 Hfragment)
        as (? & ? & ? & ? & ? & _ & [=] & _).
    + destruct Hselections as (l0 & members & [= <-] & _ & _ & Hfragments).
      apply list_elem_of_lookup in Hfragment as [i Hfragment].
      destruct (Forall2_lookup_r _ _ _ _ _ Hfragments Hfragment)
        as (member' & _ & Hdrawn).
      apply inline_fragment_draw in Hdrawn as (l'' & [= -> -> ->] & Hl'').
      by eapply IH.
Qed.

Lemma optional_date_schema_NoDup T :
  NoDup (object_fields optional_date_schema T).*1.
Proof.
  unfold object_fields, optional_date_schema, custom_scalar_schema. simpl.
  destruct (decide (T = "Object")) as [->|HObject].
  { rewrite lookup_insert_eq. simpl. apply NoDup_singleton. }
  rewrite lookup_insert_ne by done.
  destruct (decide (T = "Query")) as [->|HQuery].
  { rewrite lookup_singleton_eq. simpl. apply NoDup_singleton. }
  rewrite lookup_singleton_ne by done. constructor.
Qed.

Lemma never_selects_required_custom_scalar_witness :
  ¬ requires_custom_scalar created_field.
Proof.
  apply (never_selects_required_custom_scalar (λ _, "0.0") optional_date_schema
           2 "Query" None [getByDate_node] "Object" "created" created_field).
  - apply optional_date_schema_NoDup.
  - apply optional_date_draw. vm_compute. apply list_elem_of_here.
  - apply (reaches_object optional_date_schema "Query" [getByDate_node]
             "getByDate" (getByDate_field (GraphQLScalarType "Date")) []
             "selection_set" [created_node] "Object" "Object" "created").
    + apply list_elem_of_here.
    + vm_compute. apply list_elem_of_here.
    + reflexivity.
    + eapply reaches_here. apply list_elem_of_here.
  - vm_compute. apply list_elem_of_here.
Defined.
